(** * bilingual_book_maker: the ChatGPTAPI translator

    A shallow embedding of [book_maker/translator/chatgptapi_translator.py]
    and the properties its specification states about it.

    Conventions of the embedding.
    - A Python [str] is a list of characters, [list ascii]; a character is a
      code point below 256.  The character classes ([str.isspace], the line
      boundaries of [str.splitlines], the decimal digits of the regular
      expression class [\d]) are Python's classes restricted to that range.
    - The translator object and the process state it touches (the [openai]
      module attributes, the log file, the clock) form one record, [State];
      a method is a function from a state to an outcome and a new state, and
      an exception leaves the state as it was when it was raised.
    - Writes to standard output ([print]) carry no state and are left out.
      A [print] to a file goes through the console [rich] makes for the
      file, which is a parameter: what it writes, or the exception it raises.
    - The totals of the ledger are Python numbers: an [int] is an integer, a
      [float] a binary64 value with its rounding. *)

From Stdlib Require Import List Ascii String Arith Bool Lia ZArith QArith.
From Stdlib Require DecimalString.
Import ListNotations.

Local Open Scope list_scope.
Local Open Scope nat_scope.

(** ** Text *)

Module Text.

Definition str := list ascii.

(** A literal of the source, as a [str]. *)
Definition py (s : string) : str := list_ascii_of_string s.

Definition code (c : ascii) : nat := nat_of_ascii c.

Definition between (lo hi : nat) (c : ascii) : bool :=
  (lo <=? code c) && (code c <=? hi).

(** [str.isspace] on one character, also the class [\s] of [re]:
    TAB..CR, FS..US, SPACE, NEL, NBSP. *)
Definition isspace (c : ascii) : bool :=
  between 9 13 c || between 28 32 c || (code c =? 133) || (code c =? 160).

(** The line boundaries of [str.splitlines]: LF VT FF CR FS GS RS NEL. *)
Definition is_linebreak (c : ascii) : bool :=
  between 10 13 c || between 28 30 c || (code c =? 133).

(** The class [\d] of [re]. *)
Definition isdigit (c : ascii) : bool := between 48 57 c.

Definition LF : ascii := ascii_of_nat 10.
Definition CR : ascii := ascii_of_nat 13.

Fixpoint dropwhile (p : ascii -> bool) (s : str) : str :=
  match s with
  | [] => []
  | c :: r => if p c then dropwhile p r else s
  end.

Definition lstrip (s : str) : str := dropwhile isspace s.

Fixpoint rstrip (s : str) : str :=
  match s with
  | [] => []
  | c :: r =>
      match rstrip r with
      | [] => if isspace c then [] else [c]
      | r' => c :: r'
      end
  end.

(** [s.strip()] *)
Definition strip (s : str) : str := rstrip (lstrip s).

Definition is_empty (s : str) : bool :=
  match s with [] => true | _ => false end.

(** [a == b] *)
Definition str_eqb (a b : str) : bool :=
  if list_eq_dec ascii_dec a b then true else false.

(** [s.splitlines()], with [cur] the line read so far.  A CR LF pair is one
    boundary, and no empty line is produced after the last boundary. *)
Fixpoint splitlines_from (cur s : str) : list str :=
  match s with
  | [] => if is_empty cur then [] else [cur]
  | c :: r =>
      if is_linebreak c then
        cur :: (if Ascii.eqb c CR then
                  match r with
                  | c' :: r' =>
                      if Ascii.eqb c' LF then splitlines_from [] r'
                      else splitlines_from [] r
                  | [] => splitlines_from [] r
                  end
                else splitlines_from [] r)
      else splitlines_from (cur ++ [c]) r
  end.

Definition splitlines (s : str) : list str := splitlines_from [] s.

(** [sep.join(parts)] *)
Fixpoint join (sep : str) (parts : list str) : str :=
  match parts with
  | [] => []
  | [x] => x
  | x :: rest => x ++ sep ++ join sep rest
  end.

(** [s.startswith(p)] *)
Fixpoint startswith (p s : str) : bool :=
  match p, s with
  | [], _ => true
  | _ :: _, [] => false
  | a :: p', b :: s' => Ascii.eqb a b && startswith p' s'
  end.

(** [sub in s] *)
Fixpoint contains (sub s : str) : bool :=
  startswith sub s ||
  match s with
  | [] => false
  | _ :: r => contains sub r
  end.

(** [s.split(sep)] for a non-empty [sep]: the occurrences of [sep] are taken
    from the left and do not overlap.  [skip] counts the characters of an
    occurrence still to be passed over, [cur] is the piece read so far. *)
Fixpoint split_from (sep : str) (skip : nat) (cur s : str) : list str :=
  match s with
  | [] => [cur]
  | c :: r =>
      match skip with
      | S k => split_from sep k cur r
      | O =>
          if startswith sep s
          then cur :: split_from sep (List.length sep - 1) [] r
          else split_from sep 0 (cur ++ [c]) r
      end
  end.

Definition split (sep s : str) : list str := split_from sep 0 [] s.

(** [s.replace(old, new)] for a non-empty [old]. *)
Definition replace (old new s : str) : str := join new (split old s).

End Text.

Import Text.

(** ** Parsing a reply into segments *)

Module Parser.

(** Lines 222-223 of [translate_and_split_lines]:
    [[line.strip() for line in result_str.splitlines() if line.strip() != ""]] *)
Definition split_lines (result_str : str) : list str :=
  map strip
      (filter (fun line => negb (is_empty (strip line))) (splitlines result_str)).

(** [re.sub(r"^(\(\d+\)|\d+\.|(\d+))\s*", "", s)], line 367.  The pattern is
    anchored at the start of [s] and its alternatives are tried in order;
    [\d+] and [\s*] are greedy and nothing after them can fail, so each takes
    the whole run of digits or of white space. *)
Definition strip_ordinal (s : str) : str :=
  match s with
  | [] => s
  | c :: r =>
      if Ascii.eqb c "("%char then
        match r with
        | d :: _ =>
            if isdigit d then
              match dropwhile isdigit r with
              | c' :: r' => if Ascii.eqb c' ")"%char then lstrip r' else s
              | [] => s
              end
            else s
        | [] => s
        end
      else if isdigit c then
        match dropwhile isdigit r with
        | c' :: r' => if Ascii.eqb c' "."%char then lstrip r' else lstrip (c' :: r')
        | [] => []
        end
      else s
  end.

(** The list comprehension of line 367. *)
Definition strip_numbering (result_list : list str) : list str :=
  map strip_ordinal result_list.

(** The parse of a reply text: the line split of [translate_and_split_lines]
    followed by the ordinal strip of [translate_list]. *)
Definition parse (text : str) : list str := strip_numbering (split_lines text).

(** Segments put back into one text, one per line. *)
Definition reassemble (segments : list str) : str := join [LF] segments.

(** A segment that a second parse leaves alone: it is not empty and carries
    no ordinal marker. *)
Definition settled (s : str) : bool :=
  negb (is_empty s) && str_eqb (strip_ordinal s) s.

End Parser.

Import Parser.

(** ** The remote service and the translator's state *)

Module Api.

Definition DQ : ascii := ascii_of_nat 34.

(** A literal between double quotes. *)
Definition quoted (s : string) : str := DQ :: py s ++ [DQ].

Inductive exception : Type :=
| ServiceError (msg : str)   (* raised by [openai.ChatCompletion.create] *)
| KeyError (key : str)
| IndexError
| OverflowError              (* an [int] too large to convert to [float] *)
| MarkupError (msg : str).   (* raised by [rich] on a tag it cannot close *)

Inductive Outcome (A : Type) : Type :=
| Return (a : A)
| Raise (e : exception).
Arguments Return {A} a.
Arguments Raise {A} e.

(** *** The numbers of the ledger

    The two totals start as the [int] 0 and grow by [+=].  An [int] is exact
    and unbounded.  The rate 1.5 is a [float], an IEEE binary64 value, and so
    is a total once a product by 1.5 has been added to it.  The finite floats
    the ledger can hold are products of an [int] by 1.5 and sums of such:
    multiples of 1/2.  [Finite k] is the float k/2. *)
Inductive float : Type :=
| Finite (halves : Z)
| Infinite (negative : bool)
| NaN.

Inductive number : Type :=
| Int (n : Z)
| Float (x : float).

(** Rounding to binary64, to the nearest and ties to even: of [k], the
    count of a unit (1 or 1/2), the 53 leading bits are kept.  [e] is the
    number of bits dropped, [q] what is kept and [r] what is dropped. *)
Definition round53 (k : Z) : Z :=
  let e := Z.max 0 (Z.log2 (Z.abs k) - 52) in
  let q := (Z.abs k / 2 ^ e)%Z in
  let r := (Z.abs k mod 2 ^ e)%Z in
  let up := (2 ^ e <? 2 * r)%Z || ((2 ^ e =? 2 * r)%Z && Z.odd q) in
  (Z.sgn k * (if up then q + 1 else q) * 2 ^ e)%Z.

(** The float nearest to [k] halves; beyond the largest float, which is
    below 2^1024, it is an infinity. *)
Definition float_of_halves (k : Z) : float :=
  let r := round53 k in
  if (2 ^ 1025 <=? Z.abs r)%Z then Infinite (r <? 0)%Z else Finite r.

(** The conversion of an [int] operand to [float]. *)
Definition float_of_int (n : Z) : Outcome float :=
  let r := round53 n in
  if (2 ^ 1024 <=? Z.abs r)%Z then Raise OverflowError else Return (Finite (2 * r)).

(** [x + y] on floats. *)
Definition float_add (x y : float) : float :=
  match x, y with
  | NaN, _ | _, NaN => NaN
  | Infinite a, Infinite b => if Bool.eqb a b then Infinite a else NaN
  | Infinite a, Finite _ => Infinite a
  | Finite _, Infinite b => Infinite b
  | Finite a, Finite b => float_of_halves (a + b)
  end.

(** [n * 1.5] for an [int] [n], that is [float(n) * 1.5]: the product of
    [r] units by 3/2 is [3 * r] halves. *)
Definition times_1_5 (n : Z) : Outcome number :=
  let r := round53 n in
  if (2 ^ 1024 <=? Z.abs r)%Z then Raise OverflowError
  else Return (Float (float_of_halves (3 * r))).

(** [a + b] on numbers: exact on two [int]s, on floats otherwise. *)
Definition add (a b : number) : Outcome number :=
  match a, b with
  | Int m, Int n => Return (Int (m + n))
  | Int m, Float y =>
      match float_of_int m with
      | Return x => Return (Float (float_add x y))
      | Raise e => Raise e
      end
  | Float x, Int n =>
      match float_of_int n with
      | Return y => Return (Float (float_add x y))
      | Raise e => Raise e
      end
  | Float x, Float y => Return (Float (float_add x y))
  end.

Record Usage : Type := mkUsage {
  prompt_tokens : Z;
  completion_tokens : Z
}.

(** One element of [completion["choices"]], with the keys "message" and
    "finish_reason" the service gives it: [content] is
    [choice.get("message").get("content")], absent when the key is. *)
Record Choice : Type := mkChoice {
  content : option str;
  finish_reason : str
}.

(** The reply dictionary; a key that is absent is [None], and [{}] has none. *)
Record Completion : Type := mkCompletion {
  choices : option (list Choice);
  model : option str;
  usage : option Usage
}.

Definition empty_dict : Completion := mkCompletion None None None.

Inductive Target : Type :=
| Model (name : str)          (* [model=...] *)
| Engine (deployment : str).  (* [engine=self.deployment_id] *)

Record Request : Type := mkRequest {
  target : Target;
  messages : list (str * str);   (* role, content *)
  req_temperature : Q
}.

(** What one call of [openai.ChatCompletion.create] does: it hands back a
    completion, or it raises.  [partial] is the reply the service had produced
    when the call failed, if any; a call that raises hands nothing back. *)
Inductive Reply : Type :=
| Returned (completion : Completion)
| Raised (e : exception) (partial : option Completion).

(** A [print] with [file=f] is [rich.print] (line 5 of the source): a
    console made for the file renders the objects, reading square brackets
    as markup and folding the lines at its width, and writes the result at
    the end of the file in one piece; on a closing tag that closes nothing it
    raises [MarkupError] before it writes.  What a console writes for the
    objects it is given, or the exception it raises, is a parameter of the
    translator; the files it writes to are taken to be there. *)
Definition Console : Type := list str -> Outcome str.

(** [print(objects, file=f)] on a file opened for appending; the file is
    its contents. *)
Definition print_to (console : Console) (objects : list str) (file : str)
  : Outcome unit * str :=
  match console objects with
  | Return written => (Return tt, file ++ written)
  | Raise e => (Raise e, file)
  end.

Inductive Event : Type :=
| Rotated (key : str)            (* [openai.api_key = next(self.keys)] *)
| Requested (request : Request)  (* one call of the remote service *)
| Slept (seconds : nat).         (* [time.sleep] *)

Record State : Type := mkState {
  pool : list str;               (* the credentials [self.keys] cycles over *)
  cursor : nat;                  (* the position of the cycle *)
  key_len : nat;
  language : str;
  deployment_id : option str;
  temperature : Q;
  completion_spent : number;
  prompt_spent : number;
  api_key : option str;          (* [openai.api_key] *)
  long_text_txt : str;           (* the contents of log/long_text.txt *)
  trace : list Event             (* what the process did, oldest first *)
}.

Definition is_request (e : Event) : bool :=
  match e with Requested _ => true | _ => false end.
Definition is_rotation (e : Event) : bool :=
  match e with Rotated _ => true | _ => false end.
Definition is_sleep (e : Event) : bool :=
  match e with Slept _ => true | _ => false end.

(** The number of remote calls, of rotations, and the sleeps of a trace. *)
Definition requests (t : list Event) : nat := List.length (filter is_request t).
Definition rotations (t : list Event) : nat := List.length (filter is_rotation t).
Definition sleeps (t : list Event) : list Event := filter is_sleep t.

Definition record (e : Event) (st : State) : State :=
  mkState (pool st) (cursor st) (key_len st) (language st) (deployment_id st)
          (temperature st) (completion_spent st) (prompt_spent st) (api_key st)
          (long_text_txt st) (trace st ++ [e]).

(** [time.sleep(seconds)] *)
Definition sleep (seconds : nat) (st : State) : State := record (Slept seconds) st.

(** Modelled from the spec: the class [Base] of base_translator.py, which
    holds [self.keys] and [self.language], is not among the sources.  The
    credential pool is an ordered, fixed-size list with a rotation cursor;
    [next] gives the credential under the cursor and advances the cursor by
    one, wrapping around at the size of the pool. *)
Definition next_key (st : State) : str * nat :=
  (nth (cursor st) (pool st) [], S (cursor st) mod List.length (pool st)).

(** [rotate_key]: [openai.api_key = next(self.keys)] *)
Definition rotate_key (st : State) : State :=
  let (key, cursor') := next_key st in
  record (Rotated key)
    (mkState (pool st) cursor' (key_len st) (language st) (deployment_id st)
             (temperature st) (completion_spent st) (prompt_spent st) (Some key)
             (long_text_txt st) (trace st)).

(** [__init__]: one credential per comma-separated piece of [key]; the
    totals start at 0 and no deployment is set.  [api_base], the prompt
    templates and the system message serve [create_chat_completion] only. *)
Definition init (key language : str) (temperature : Q) : State :=
  mkState (split (py ",") key) 0 (List.length (split (py ",") key)) language
          None temperature (Int 0) (Int 0) None [] [].

(** [set_deployment_id]; the two [openai] attributes it sets besides are not
    read by the translator. *)
Definition set_deployment_id (deployment : str) (st : State) : State :=
  mkState (pool st) (cursor st) (key_len st) (language st) (Some deployment)
          (temperature st) (completion_spent st) (prompt_spent st) (api_key st)
          (long_text_txt st) (trace st).

End Api.

Import Api.

(** ** The translator *)

Module Translator.

(** The messages of [create_chat_completion_2pass]. *)
Definition system_message : str :=
  py "You are a professional translator. You always translate accurately, fluently and reliably.".

(** The guideline message, an f-string over [self.language].  Its three
    characters beyond code point 255 stand as their UTF-8 bytes. *)
Definition translation_prompt (language : str) : str :=
  py "
Translation Guideline:
- Retain specific terms/names, put it after the translation in brackets, for example: "
  ++ quoted "乔（Joe）" ++ py ".
- Divide the translation into two parts and print each result:
1. Translate directly based on the content, without omitting any information.
2. Based on the first direct translation, rephrase it to make the content more easily understood and conform to "
  ++ language ++ py " expression habits, while adhering to the original meaning.
Without any comment, return the result in the following python dict format:
[{" ++ quoted "direct_translation" ++ py ": " ++ quoted "direct translation here" ++ py ",
" ++ quoted "better_translation" ++ py ": " ++ quoted "better translation here" ++ py ",}]
Reply OK to this message and I'll send you text to be translated to "
  ++ language ++ py " afterwards.".

Definition user_payload (text language : str) : str :=
  py "{" ++ quoted "text" ++ py ": " ++ [DQ] ++ text ++ [DQ] ++ py ","
     ++ quoted "target_language" ++ py ": " ++ [DQ] ++ language ++ [DQ] ++ py ",}".

(** The [pattern] of [get_translation],
    ["better_translation":[\s\n]*[“"”]([\s\S]*?)[“"”]?,?[\s\n]*}], on
    characters below 256, where the only quote of the class is [DQ].
    [closes s]: the part of the pattern after the group matches at the start
    of [s]; the optional quote and comma may each be taken or left. *)
Definition closes (s : str) : bool :=
  let brace t := match lstrip t with
                 | c :: _ => Ascii.eqb c "}"%char
                 | [] => false
                 end in
  let comma t := match t with
                 | c :: r => (Ascii.eqb c ","%char && brace r) || brace t
                 | [] => false
                 end in
  match s with
  | c :: r => (Ascii.eqb c DQ && comma r) || comma s
  | [] => false
  end.

(** The lazy group: the shortest text after which the pattern closes. *)
Fixpoint capture (group s : str) : option str :=
  if closes s then Some group
  else match s with
       | [] => None
       | c :: r => capture (group ++ [c]) r
       end.

Definition label : str := quoted "better_translation" ++ py ":".

(** The pattern matched at the start of [s]; its group 1. *)
Definition match_here (s : str) : option str :=
  if startswith label s then
    match lstrip (skipn (List.length label) s) with
    | c :: r => if Ascii.eqb c DQ then capture [] r else None
    | [] => None
    end
  else None.

(** [re.search(pattern, response_text)], group 1 of the leftmost match. *)
Fixpoint search_better_translation (response_text : str) : option str :=
  match match_here response_text with
  | Some group => Some group
  | None =>
      match response_text with
      | [] => None
      | _ :: r => search_better_translation r
      end
  end.

(** The text [get_translation] prints to log/long_text.txt, lines 169-172. *)
Definition long_text_message (text : str) : str :=
  py "==================================================
The total token is too long and cannot be completely translated

" ++ text ++ [LF].

(** The record in the file when the console writes the text as it is. *)
Definition long_text_record (text : str) : str := long_text_message text ++ [LF].

Definition set_long_text_txt (file : str) (st : State) : State :=
  mkState (pool st) (cursor st) (key_len st) (language st) (deployment_id st)
          (temperature st) (completion_spent st) (prompt_spent st) (api_key st)
          file (trace st).

Definition set_prompt_spent (prompt : number) (st : State) : State :=
  mkState (pool st) (cursor st) (key_len st) (language st) (deployment_id st)
          (temperature st) (completion_spent st) prompt (api_key st)
          (long_text_txt st) (trace st).

Definition set_completion_spent (completion : number) (st : State) : State :=
  mkState (pool st) (cursor st) (key_len st) (language st) (deployment_id st)
          (temperature st) completion (prompt_spent st) (api_key st)
          (long_text_txt st) (trace st).

(** [self.prompt_spent += prompt_cost] and then
    [self.completion_spent += completion_cost]: a sum is stored only when it
    has been computed, and an exception ends the two statements where it is
    raised. *)
Definition spend (prompt_cost : Outcome number) (completion_cost : number)
    (st : State) : Outcome unit * State :=
  match prompt_cost with
  | Raise e => (Raise e, st)
  | Return cost =>
      match add (prompt_spent st) cost with
      | Raise e => (Raise e, st)
      | Return prompt =>
          let st1 := set_prompt_spent prompt st in
          match add (completion_spent st1) completion_cost with
          | Raise e => (Raise e, st1)
          | Return completion => (Return tt, set_completion_spent completion st1)
          end
      end
  end.

(** Lines 146-151 of [get_translation], "Calculate fare". *)
Definition fare (completion : Completion) (st : State) : Outcome unit * State :=
  match model completion with
  | None => (Raise (KeyError (py "model")), st)
  | Some m =>
      match usage completion with
      | None => (Raise (KeyError (py "usage")), st)
      | Some u =>
          if contains (py "16k") m
          then spend (Return (Int (prompt_tokens u * 3)))
                     (Int (completion_tokens u * 4)) st
          else spend (times_1_5 (prompt_tokens u))
                     (Int (completion_tokens u * 2)) st
      end
  end.

(** The test of the [except] branch of [get_translation], lines 136-143, on
    the value the local [completion] has there: [true] when it re-raises. *)
Definition handler_reraises (completion : Completion) : bool :=
  match choices completion with
  | None => true                       (* "choices" not in completion *)
  | Some cs =>
      match last (map Some cs) None with
      | None => true                   (* len(completion["choices"]) == 0 *)
      | Some choice =>
          negb (str_eqb (finish_reason choice) (py "length"))
      end
  end.

Section WithWorld.

(** [tiktoken.get_encoding(encoding_name).encode(string)] *)
Variable encode : str -> str -> list nat.

(** The remote service: the reply to the [n]-th call of the process, made
    under the credential in force with the given request. *)
Variable service : nat -> option str -> Request -> Reply.

(** The console of [rich] for the files of the log. *)
Variable console : Console.

Definition count_tokens (string : str) : nat :=
  List.length (encode (py "cl100k_base") string).

(** [openai.ChatCompletion.create(...)] *)
Definition ChatCompletion_create (request : Request) (st : State)
  : Outcome Completion * State :=
  let st' := record (Requested request) st in
  match service (requests (trace st)) (api_key st) request with
  | Returned completion => (Return completion, st')
  | Raised e _ => (Raise e, st')
  end.

Definition create_chat_completion_2pass (text : str) (st : State)
  : Outcome Completion * State :=
  let translation_prompt := translation_prompt (language st) in
  let messages :=
    [ (py "system", system_message);
      (py "user", translation_prompt);
      (py "assistant", py "OK");
      (py "user", user_payload text (language st)) ] in
  match deployment_id st with
  | Some (c :: r) =>
      ChatCompletion_create
        (mkRequest (Engine (c :: r)) messages (temperature st)) st
  | _ =>
      let text_length :=
        count_tokens (system_message ++ translation_prompt ++ text ++ py "OK") in
      if text_length <=? 1200 then
        ChatCompletion_create
          (mkRequest (Model (py "gpt-3.5-turbo")) messages (temperature st)) st
      else
        ChatCompletion_create
          (mkRequest (Model (py "gpt-3.5-turbo-16k")) messages (temperature st)) st
  end.

(** Lines 166-174: the record of a text too long, added to
    log/long_text.txt. *)
Definition log_long_text (text : str) (st : State) : Outcome unit * State :=
  let (printed, file) :=
    print_to console [long_text_message text] (long_text_txt st) in
  (printed, set_long_text_txt file st).

(** Lines 145-176 of [get_translation], from "Calculate fare" on. *)
Definition finish_translation (text : str) (completion : Completion) (st : State)
  : Outcome str * State :=
  match fare completion st with
  | (Raise e, st1) => (Raise e, st1)
  | (Return _, st1) =>
      match choices completion with
      | None => (Raise (KeyError (py "choices")), st1)
      | Some cs =>
          match last (map Some cs) None with
          | None => (Raise IndexError, st1)
          | Some choice =>
              let response_text :=
                match content choice with Some c => c | None => [] end in
              let t_text :=
                match search_better_translation response_text with
                | Some group => group
                | None => response_text
                end in
              if str_eqb (finish_reason choice) (py "length") then
                match log_long_text text st1 with
                | (Raise e, st2) => (Raise e, st2)
                | (Return _, st2) => (Return (replace (py "\n") [LF] t_text), st2)
                end
              else (Return (replace (py "\n") [LF] t_text), st1)
          end
      end
  end.

Definition get_translation (text : str) (st : State) : Outcome str * State :=
  let st0 := rotate_key st in
  let completion := empty_dict in
  match create_chat_completion_2pass text st0 with
  | (Return completion, st1) => finish_translation text completion st1
  | (Raise e, st1) =>
      (* the assignment did not happen: [completion] is as before the [try] *)
      if handler_reraises completion then (Raise e, st1)
      else finish_translation text completion st1
  end.

Definition max_attempts : nat := 3.

(** The [while] loop of [translate].  [fuel] bounds the iterations of the
    model; [None] is a loop cut short by it. *)
Fixpoint translate_loop (fuel : nat) (text : str) (attempt_count : nat)
    (t_text : str) (st : State) : option (Outcome str * State) :=
  if attempt_count <? max_attempts then
    match fuel with
    | O => None
    | S fuel' =>
        match get_translation text st with
        | (Return t_text, st1) =>
            if contains (quoted "direct_trans" ++ py ":") t_text
               && (attempt_count =? 0)
            then translate_loop fuel' text (attempt_count + 1) t_text st1
            else if contains (py "_trans" ++ [DQ] ++ py ":") t_text
                    && (0 <? attempt_count)
            then Some (Return (last (split (py "_trans" ++ [DQ] ++ py ":") t_text) []),
                       st1)
            else Some (Return t_text, st1)
        | (Raise e, st1) =>
            let sleep_time := 60 / key_len st1 in
            let st2 := sleep sleep_time st1 in
            let attempt_count := attempt_count + 1 in
            if attempt_count =? max_attempts then Some (Raise e, st2)
            else translate_loop fuel' text attempt_count t_text st2
        end
    end
  else Some (Return t_text, st).

(** [translate]; [needprint] governs printing only.  [key_len] is at least 1
    in a state made by [init]. *)
Definition translate (text : str) (st : State) : option (Outcome str * State) :=
  translate_loop max_attempts text 0 [] st.

Definition translate_and_split_lines (text : str) (st : State)
  : option (Outcome (list str) * State) :=
  match translate text st with
  | None => None
  | Some (Raise e, st1) => Some (Raise e, st1)
  | Some (Return result_str, st1) => Some (Return (split_lines result_str), st1)
  end.

(** The test of lines 248-255: the new list replaces the best one. *)
Definition replaces_best (plist_len : nat) (best_result_list result_list : list str)
  : bool :=
  (List.length result_list =? plist_len)
  || ((List.length best_result_list <? List.length result_list)
      && (List.length result_list <=? plist_len))
  || ((List.length result_list <? List.length best_result_list)
      && (plist_len <? List.length best_result_list)).

(** The [while] loop of [get_best_result_list], lines 240-256. *)
Fixpoint best_result_loop (fuel : nat) (plist_len : nat) (new_str : str)
    (sleep_dur max_retries retry_count : nat)
    (result_list best_result_list : list str) (st : State)
  : option (Outcome (list str * nat) * State) :=
  if (retry_count <? max_retries)
     && negb (List.length result_list =? plist_len)
  then
    match fuel with
    | O => None
    | S fuel' =>
        let st1 := sleep sleep_dur st in
        let retry_count := retry_count + 1 in
        match translate_and_split_lines new_str st1 with
        | None => None
        | Some (Raise e, st2) => Some (Raise e, st2)
        | Some (Return result_list, st2) =>
            let best_result_list :=
              if replaces_best plist_len best_result_list result_list
              then result_list else best_result_list in
            best_result_loop fuel' plist_len new_str sleep_dur max_retries
                             retry_count result_list best_result_list st2
        end
    end
  else Some (Return (best_result_list, retry_count), st).

Definition get_best_result_list (plist_len : nat) (new_str : str)
    (sleep_dur : nat) (result_list : list str) (max_retries : nat) (st : State)
  : option (Outcome (list str * nat) * State) :=
  if List.length result_list =? plist_len then Some (Return (result_list, 0), st)
  else best_result_loop max_retries plist_len new_str sleep_dur max_retries 0
                        result_list result_list st.

(** The default of [max_retries]. *)
Definition default_max_retries : nat := 15.

End WithWorld.

End Translator.

Import Translator.

(** ** Properties of the text functions *)

Module TextFacts.

Definition no_break (s : str) : Prop :=
  Forall (fun c => is_linebreak c = false) s.

(** A line as [split_lines] leaves it: no line boundary inside, no white
    space at either end. *)
Definition tidy (s : str) : Prop :=
  no_break s /\ lstrip s = s /\ rstrip s = s.

Lemma dropwhile_suffix (p : ascii -> bool) (s : str) :
  exists pre, s = pre ++ dropwhile p s.
Proof.
  induction s as [|c r [pre IH]]; simpl.
  - now exists [].
  - destruct (p c).
    + exists (c :: pre). simpl. now f_equal.
    + now exists [].
Qed.

Lemma lstrip_idem (s : str) : lstrip (lstrip s) = lstrip s.
Proof.
  unfold lstrip. induction s as [|c r IH]; simpl; trivial.
  destruct (isspace c) eqn:E; trivial. simpl. now rewrite E.
Qed.

Lemma rstrip_prefix (s : str) : exists post, s = rstrip s ++ post.
Proof.
  induction s as [|c r [post IH]]; simpl.
  - now exists [].
  - destruct (rstrip r) as [|d r'] eqn:E.
    + destruct (isspace c).
      * now exists (c :: r).
      * exists post. simpl in *. now f_equal.
    + exists post. simpl in *. now f_equal.
Qed.

Lemma rstrip_idem (s : str) : rstrip (rstrip s) = rstrip s.
Proof.
  induction s as [|c r IH]; simpl; trivial.
  destruct (rstrip r) as [|d r'] eqn:E.
  - destruct (isspace c) eqn:Ec; simpl; trivial. now rewrite Ec.
  - change (rstrip (c :: d :: r')) with
      (match rstrip (d :: r') with
       | [] => if isspace c then [] else [c]
       | x :: y => c :: x :: y
       end).
    now rewrite IH.
Qed.

Lemma rstrip_suffix (pre t : str) : rstrip (pre ++ t) = pre ++ t -> rstrip t = t.
Proof.
  induction pre as [|c pre IH]; simpl; trivial.
  destruct (rstrip (pre ++ t)) as [|d r'] eqn:E.
  - destruct (isspace c); intros H; try discriminate.
    injection H as H. symmetry in H. apply app_eq_nil in H as [_ ->]. reflexivity.
  - intros H. injection H as H. now apply IH.
Qed.

Lemma lstrip_rstrip (t : str) : lstrip t = t -> lstrip (rstrip t) = rstrip t.
Proof.
  destruct t as [|c r]; simpl; trivial.
  unfold lstrip. simpl. destruct (isspace c) eqn:Ec.
  - intros H. exfalso.
    destruct (dropwhile_suffix isspace r) as [pre Hpre].
    rewrite H in Hpre. apply (f_equal (@List.length ascii)) in Hpre.
    rewrite length_app in Hpre. simpl in Hpre. lia.
  - intros _. destruct (rstrip r); simpl; now rewrite Ec.
Qed.

Lemma no_break_app (a b : str) : no_break (a ++ b) <-> no_break a /\ no_break b.
Proof. apply Forall_app. Qed.

Lemma strip_tidy (s : str) : no_break s -> tidy (strip s).
Proof.
  intros Hs. unfold strip. repeat split.
  - destruct (dropwhile_suffix isspace s) as [pre Hpre].
    destruct (rstrip_prefix (lstrip s)) as [post Hpost].
    fold (lstrip s) in Hpre. rewrite Hpre in Hs.
    apply no_break_app in Hs as [_ Hs]. rewrite Hpost in Hs.
    now apply no_break_app in Hs as [Hs _].
  - apply lstrip_rstrip, lstrip_idem.
  - apply rstrip_idem.
Qed.

Lemma strip_of_tidy (s : str) : tidy s -> strip s = s.
Proof. intros (_ & Hl & Hr). unfold strip. now rewrite Hl. Qed.

Lemma splitlines_from_no_break_upto (n : nat) :
  forall s cur, List.length s <= n -> no_break cur ->
                Forall no_break (splitlines_from cur s).
Proof.
  induction n as [|n IH]; intros [|c r] cur Hn Hcur; simpl in *; try lia.
  - destruct (is_empty cur); auto.
  - destruct (is_empty cur); auto.
  - destruct (is_linebreak c) eqn:Ec.
    + constructor; trivial.
      assert (Hr : Forall no_break (splitlines_from [] r))
        by (apply IH; [lia | constructor]).
      destruct (Ascii.eqb c CR); trivial.
      destruct r as [|c' r']; trivial.
      destruct (Ascii.eqb c' LF); trivial.
      apply IH; [simpl in Hn; lia | constructor].
    + apply IH; [lia|]. apply no_break_app. split; trivial.
      constructor; [exact Ec | constructor].
Qed.

Lemma splitlines_from_no_break (s cur : str) :
  no_break cur -> Forall no_break (splitlines_from cur s).
Proof. apply (splitlines_from_no_break_upto (List.length s)). lia. Qed.

Lemma splitlines_from_line (l rest cur : str) :
  no_break l -> splitlines_from cur (l ++ rest) = splitlines_from (cur ++ l) rest.
Proof.
  intros Hl. revert cur. induction Hl as [|c l Hc _ IH]; intros cur; simpl.
  - now rewrite app_nil_r.
  - rewrite Hc, IH, <- app_assoc. reflexivity.
Qed.

Lemma splitlines_from_LF (cur rest : str) :
  splitlines_from cur (LF :: rest) = cur :: splitlines_from [] rest.
Proof. reflexivity. Qed.

End TextFacts.

(** ** Properties of the parse *)

Module ParserFacts.
Import TextFacts.

Definition suffix (t s : str) : Prop := exists pre, s = pre ++ t.

Lemma suffix_refl (s : str) : suffix s s.
Proof. now exists []. Qed.

Lemma suffix_cons (c : ascii) (t r : str) : suffix t r -> suffix t (c :: r).
Proof. intros [pre ->]. now exists (c :: pre). Qed.

Lemma suffix_trans (a b c : str) : suffix a b -> suffix b c -> suffix a c.
Proof. intros [p ->] [q ->]. exists (q ++ p). now rewrite app_assoc. Qed.

Lemma suffix_dropwhile (p : ascii -> bool) (s : str) : suffix (dropwhile p s) s.
Proof. apply dropwhile_suffix. Qed.

Create HintDb sfx.
#[local] Hint Resolve suffix_refl suffix_cons suffix_dropwhile : sfx.

Lemma tidy_lstrip_suffix (t s : str) : tidy s -> suffix t s -> tidy (lstrip t).
Proof.
  intros (Hb & _ & Hr) Ht.
  assert (Hs : suffix (lstrip t) s)
    by (eapply suffix_trans; [apply suffix_dropwhile | exact Ht]).
  destruct Hs as [pre Hpre]. repeat split.
  - rewrite Hpre in Hb. now apply no_break_app in Hb.
  - apply lstrip_idem.
  - apply (rstrip_suffix pre). now rewrite <- Hpre.
Qed.

(** The ordinal strip keeps the segment or cuts a prefix of it and the white
    space that follows. *)
Lemma strip_ordinal_cases (s : str) :
  strip_ordinal s = s \/ exists t, suffix t s /\ strip_ordinal s = lstrip t.
Proof.
  destruct s as [|c r]; simpl; auto.
  destruct (Ascii.eqb c "("%char).
  - destruct r as [|d r0]; auto.
    destruct (isdigit d); auto.
    destruct (dropwhile isdigit (d :: r0)) as [|c' r'] eqn:E; auto.
    destruct (Ascii.eqb c' ")"%char); auto.
    right. exists r'. split; trivial.
    apply suffix_cons. apply suffix_trans with (c' :: r'); auto with sfx.
    rewrite <- E. auto with sfx.
  - destruct (isdigit c); auto.
    right. destruct (dropwhile isdigit r) as [|c' r'] eqn:E.
    + exists []. split; trivial. exists (c :: r). now rewrite app_nil_r.
    + assert (Hs : suffix (c' :: r') (c :: r))
        by (apply suffix_cons; rewrite <- E; auto with sfx).
      destruct (Ascii.eqb c' "."%char).
      * exists r'. split; trivial.
        apply suffix_trans with (c' :: r'); auto with sfx.
      * exists (c' :: r'). split; trivial.
Qed.

Lemma strip_ordinal_tidy (s : str) : tidy s -> tidy (strip_ordinal s).
Proof.
  intros Hs. destruct (strip_ordinal_cases s) as [-> | (t & Ht & ->)]; trivial.
  now apply tidy_lstrip_suffix with s.
Qed.

Lemma split_lines_tidy (text : str) :
  Forall (fun l => tidy l /\ is_empty l = false) (split_lines text).
Proof.
  unfold split_lines, splitlines.
  assert (H : Forall no_break (splitlines_from [] text))
    by (apply splitlines_from_no_break; constructor).
  induction H as [|l ls Hl _ IH]; simpl; [constructor|].
  destruct (is_empty (strip l)) eqn:E; simpl; trivial.
  constructor; trivial. split; trivial. now apply strip_tidy.
Qed.

Lemma parse_tidy (text : str) : Forall tidy (parse text).
Proof.
  unfold parse, strip_numbering. apply Forall_map.
  eapply Forall_impl; [|apply split_lines_tidy].
  simpl. intros l [Hl _]. now apply strip_ordinal_tidy.
Qed.

Definition non_empty (s : str) : bool := negb (is_empty s).

(** Tidy segments written one per line are read back as they are, the empty
    ones dropped. *)
Lemma split_lines_reassemble (out : list str) :
  Forall tidy out -> split_lines (reassemble out) = filter non_empty out.
Proof.
  unfold split_lines, splitlines, reassemble.
  induction 1 as [|x rest Hx Hrest IH]; trivial.
  pose proof (strip_of_tidy x Hx) as Sx. destruct Hx as (Hb & _).
  destruct rest as [|y rest].
  - assert (E : splitlines_from [] x = if is_empty x then [] else [x]).
    { pose proof (splitlines_from_line x [] [] Hb) as E.
      rewrite app_nil_r in E. exact E. }
    simpl join. rewrite E. unfold non_empty. simpl filter.
    destruct (is_empty x) eqn:Ex; simpl; trivial.
    rewrite Sx, Ex. simpl. now rewrite Sx.
  - change (join [LF] (x :: y :: rest)) with (x ++ LF :: join [LF] (y :: rest)).
    rewrite (splitlines_from_line x _ [] Hb), splitlines_from_LF.
    simpl app.
    change (filter non_empty (x :: y :: rest))
      with (if non_empty x then x :: filter non_empty (y :: rest)
            else filter non_empty (y :: rest)).
    remember (splitlines_from [] (join [LF] (y :: rest))) as ls.
    remember (filter non_empty (y :: rest)) as kept.
    simpl. rewrite Sx. unfold non_empty.
    destruct (negb (is_empty x)); simpl; rewrite IH; trivial.
    now rewrite Sx.
Qed.

Lemma split_lines_idempotent (text : str) :
  split_lines (reassemble (split_lines text)) = split_lines text.
Proof.
  pose proof (split_lines_tidy text) as H.
  rewrite split_lines_reassemble.
  - induction H as [|l ls [_ Hl] _ IH]; simpl; trivial.
    unfold non_empty at 1. rewrite Hl. simpl. now f_equal.
  - eapply Forall_impl; [|exact H]. now intros l [Hl _].
Qed.

Lemma reparse (text : str) :
  parse (reassemble (parse text)) = map strip_ordinal (filter non_empty (parse text)).
Proof.
  unfold parse at 1. now rewrite split_lines_reassemble by apply parse_tidy.
Qed.

Lemma map_filter_fixed (out : list str) :
  map strip_ordinal (filter non_empty out) = out <-> forallb settled out = true.
Proof.
  induction out as [|x r IH]; simpl; [tauto|].
  unfold settled at 1, str_eqb. fold (non_empty x).
  destruct (non_empty x); simpl.
  - destruct (list_eq_dec ascii_dec (strip_ordinal x) x) as [E|E]; simpl.
    + rewrite E. rewrite <- IH. split; [now intros [= ->] | now intros ->].
    + split; [intros [= H _]; contradiction | discriminate].
  - split; [|discriminate]. intros H.
    apply (f_equal (@List.length str)) in H.
    rewrite length_map in H. simpl in H.
    pose proof (filter_length_le non_empty r). lia.
Qed.

End ParserFacts.

(** ** The parse: ordinal markers and re-parsing *)

Module ParserSpec.
Import TextFacts ParserFacts.

Lemma dropwhile_run (p : ascii -> bool) (run rest : str) :
  forallb p run = true -> dropwhile p (run ++ rest) = dropwhile p rest.
Proof.
  induction run as [|c run IH]; simpl; trivial.
  destruct (p c); simpl; [exact IH | discriminate].
Qed.

(** The three marker forms in general: a run of digits [n] between
    parentheses, before a full stop, or bare, and the white space [ws] after
    it, are cut from a segment whose remainder [rest] starts with neither
    white space nor, for the bare form, a digit or a full stop. *)
Lemma strip_ordinal_marker (d : ascii) (n ws rest : str) :
  forallb isdigit (d :: n) = true -> forallb isspace ws = true ->
  lstrip rest = rest ->
  strip_ordinal (py "(" ++ d :: n ++ py ")" ++ ws ++ rest) = rest
  /\ strip_ordinal (d :: n ++ py "." ++ ws ++ rest) = rest
  /\ (dropwhile isdigit rest = rest -> ~ startswith (py ".") rest = true ->
      strip_ordinal (d :: n ++ ws ++ rest) = rest).
Proof.
  intros Hn Hws Hrest. simpl in Hn. apply andb_prop in Hn as [Hd Hn].
  assert (Hlws : forall t, lstrip (ws ++ t) = lstrip t)
    by (intros t; apply dropwhile_run; exact Hws).
  repeat split.
  - simpl. rewrite Hd. rewrite (dropwhile_run isdigit n _ Hn). simpl.
    now rewrite Hlws.
  - simpl. destruct (Ascii.eqb d "("%char) eqn:E.
    + apply Ascii.eqb_eq in E. subst d. discriminate.
    + rewrite Hd. rewrite (dropwhile_run isdigit n _ Hn). simpl.
      now rewrite Hlws.
  - intros Hdig Hdot. simpl. destruct (Ascii.eqb d "("%char) eqn:E.
    + apply Ascii.eqb_eq in E. subst d. discriminate.
    + rewrite Hd. rewrite (dropwhile_run isdigit n _ Hn).
      destruct ws as [|w ws'].
      * simpl. rewrite Hdig. destruct rest as [|c r]; trivial.
        simpl in Hdot. rewrite andb_true_r in Hdot.
        destruct (Ascii.eqb c "."%char) eqn:Ec.
        -- apply Ascii.eqb_eq in Ec. subst c. now elim Hdot.
        -- exact Hrest.
      * simpl in Hws. apply andb_prop in Hws as [Hw Hws'].
        assert (Hwd : isdigit w = false).
        { destruct (isdigit w) eqn:Ew; trivial. exfalso. clear - Hw Ew.
          unfold isdigit, isspace, between in *.
          repeat match goal with
                 | H : _ && _ = true |- _ => apply andb_prop in H as [? ?]
                 | H : _ || _ = true |- _ => apply orb_prop in H as [?|?]
                 | H : (_ <=? _) = true |- _ => apply Nat.leb_le in H
                 | H : (_ =? _) = true |- _ => apply Nat.eqb_eq in H
                 end; lia. }
        simpl. rewrite Hwd.
        destruct (Ascii.eqb w "."%char) eqn:Ew.
        -- apply Ascii.eqb_eq in Ew. subst w. discriminate.
        -- change (lstrip (w :: ws' ++ rest)) with (lstrip ((w :: ws') ++ rest)).
           rewrite Hlws. exact Hrest.
Qed.

(** C10: the ordinal strip of line 367 maps "(3) hello", "3. hello" and
    "3 hello" to "hello", one by one and as a list of segments. *)
Theorem strip_ordinal_hello :
  strip_ordinal (py "(3) hello") = py "hello"
  /\ strip_ordinal (py "3. hello") = py "hello"
  /\ strip_ordinal (py "3 hello") = py "hello"
  /\ strip_numbering [py "(3) hello"; py "3. hello"; py "3 hello"]
     = [py "hello"; py "hello"; py "hello"].
Proof. repeat split; reflexivity. Qed.

(** C7, as the code has it: the line split (split into lines, drop the blank
    ones, strip each) is idempotent on every text, and on the reassembled
    output of the whole parse it gives that output without its empty
    segments; the whole parse, ordinal strip included, gives back its own
    output exactly when every segment of that output is settled, that is
    non-empty and without a further ordinal marker.  In general a second
    parse drops the empty segments and strips the others once more. *)
Theorem parse_twice (text : str) :
  split_lines (reassemble (split_lines text)) = split_lines text
  /\ split_lines (reassemble (parse text)) = filter non_empty (parse text)
  /\ parse (reassemble (parse text))
     = map strip_ordinal (filter non_empty (parse text))
  /\ (parse (reassemble (parse text)) = parse text
      <-> forallb settled (parse text) = true).
Proof.
  split; [apply split_lines_idempotent|].
  split; [apply split_lines_reassemble, parse_tidy|].
  split; [apply reparse|].
  rewrite reparse. apply map_filter_fixed.
Qed.

Lemma parse_twice_witness :
  parse (reassemble (parse (py "(1) Bonjour
2. le monde")))
  = parse (py "(1) Bonjour
2. le monde").
Proof.
  apply (proj2 (proj2 (proj2 (parse_twice (py "(1) Bonjour
2. le monde"))))).
  reflexivity.
Defined.

(** C7 as stated fails: a segment under two markers loses one at each parse. *)
Lemma parse_not_idempotent :
  parse (py "1. 2. hello") = [py "2. hello"]
  /\ parse (reassemble (parse (py "1. 2. hello"))) = [py "hello"]
  /\ parse (reassemble (parse (py "1. 2. hello"))) <> parse (py "1. 2. hello").
Proof. repeat split; try reflexivity. vm_compute. discriminate. Qed.

(** A segment that is a marker only is parsed to the empty segment, which a
    second parse drops. *)
Lemma parse_drops_empty_segment :
  parse (py "(1)") = [ [] ]
  /\ parse (reassemble (parse (py "(1)"))) = []
  /\ split_lines (reassemble (parse (py "(1)"))) = [].
Proof. repeat split; reflexivity. Qed.

End ParserSpec.

(** ** Binary64 below 2^53 *)

Module NumberFacts.

Local Open Scope Z_scope.

Lemma round53_small (k : Z) : Z.abs k < 2 ^ 53 -> round53 k = k.
Proof.
  intros H. unfold round53.
  assert (E : Z.max 0 (Z.log2 (Z.abs k) - 52) = 0).
  { destruct (Z.eq_dec (Z.abs k) 0) as [E0|E0].
    - rewrite E0. reflexivity.
    - assert (L : Z.log2 (Z.abs k) < 53) by (apply Z.log2_lt_pow2; lia).
      lia. }
  rewrite E. change (2 ^ 0) with 1.
  rewrite Z.div_1_r, Z.mod_1_r. simpl. rewrite Z.mul_1_r. lia.
Qed.

(** Above 2^53 the spacing of the floats is 2, then 4: a value half way
    between two floats goes to the one whose last bit is 0. *)
Lemma round53_ties_to_even :
  round53 (2 ^ 53 + 1) = 2 ^ 53
  /\ round53 (2 ^ 53 + 3) = 2 ^ 53 + 4
  /\ round53 (- (2 ^ 53 + 1)) = - 2 ^ 53
  /\ round53 (2 ^ 54 + 1) = 2 ^ 54
  /\ round53 (2 ^ 54 + 2) = 2 ^ 54
  /\ round53 (2 ^ 54 + 3) = 2 ^ 54 + 4
  /\ round53 (2 ^ 54 + 6) = 2 ^ 54 + 8.
Proof. repeat split; vm_compute; reflexivity. Qed.

Lemma below_overflow (k : Z) (n : Z) :
  53 <= n -> Z.abs k < 2 ^ 53 -> (2 ^ n <=? Z.abs k) = false.
Proof.
  intros Hn H. apply Z.leb_gt. eapply Z.lt_le_trans; [exact H|].
  apply Z.pow_le_mono_r; lia.
Qed.

Lemma float_of_halves_small (k : Z) :
  Z.abs k < 2 ^ 53 -> float_of_halves k = Finite k.
Proof.
  intros H. unfold float_of_halves. rewrite round53_small by exact H.
  now rewrite below_overflow by (trivial; lia).
Qed.

Lemma float_of_int_small (n : Z) :
  Z.abs n < 2 ^ 53 -> float_of_int n = Return (Finite (2 * n)).
Proof.
  intros H. unfold float_of_int. rewrite round53_small by exact H.
  now rewrite below_overflow by (trivial; lia).
Qed.

Lemma times_1_5_small (n : Z) :
  Z.abs (3 * n) < 2 ^ 53 -> times_1_5 n = Return (Float (Finite (3 * n))).
Proof.
  intros H. unfold times_1_5.
  assert (Hn : Z.abs n < 2 ^ 53) by lia.
  rewrite round53_small by exact Hn.
  rewrite below_overflow by (trivial; lia).
  now rewrite float_of_halves_small.
Qed.

End NumberFacts.

(** ** Test doubles *)

Module Mock.

(** An encoder of one token per character. *)
Definition encode (encoding_name string : str) : list nat :=
  map nat_of_ascii string.

(** A console that writes the objects as they are, a space between two
    of them and a line feed at the end. *)
Definition console : Console := fun objects => Return (join (py " ") objects ++ [LF]).

(** A translator with two credentials, before its first call. *)
Definition fresh : State := init (py "key-a,key-b") (py "French") 1%Q.

Definition reply_with (text finish model : string) : Completion :=
  mkCompletion (Some [mkChoice (Some (py text)) (py finish)])
               (Some (py model)) (Some (mkUsage 100 50)).

(** A reply cut at the output limit. *)
Definition truncated : Completion :=
  reply_with "Bonjour le" "length" "gpt-3.5-turbo-0613".

(** A service whose every call raises, a truncated reply left behind. *)
Definition failing (n : nat) (key : option str) (request : Request) : Reply :=
  Raised (ServiceError (py "timed out")) (Some truncated).

(** A service that returns the truncated reply. *)
Definition truncating (n : nat) (key : option str) (request : Request) : Reply :=
  Returned truncated.

(** A service that answers every call with the same three numbered lines. *)
Definition steady (n : nat) (key : option str) (request : Request) : Reply :=
  Returned (reply_with "(1) un
(2) deux
(3) trois" "stop" "gpt-3.5-turbo-0613").

(** A service that answers from the long-context model. *)
Definition long_context (n : nat) (key : option str) (request : Request) : Reply :=
  Returned (reply_with "Bonjour" "stop" "gpt-3.5-turbo-16k-0613").

(** A service whose replies have four lines, then five, then three. *)
Definition climbing (n : nat) (key : option str) (request : Request) : Reply :=
  match n with
  | 0 => Returned (reply_with "(1) a
(2) b
(3) c d
(4) e" "stop" "gpt-3.5-turbo-0613")
  | 1 => Returned (reply_with "(1) a
(2) b
(3) c
(4) d
(5) e" "stop" "gpt-3.5-turbo-0613")
  | _ => Returned (reply_with "(1) a b
(2) c d
(3) e" "stop" "gpt-3.5-turbo-0613")
  end.

(** A service that fails once and then answers. *)
Definition flaky (n : nat) (key : option str) (request : Request) : Reply :=
  match n with
  | O => Raised (ServiceError (py "rate limit")) None
  | _ => steady n key request
  end.

(** A batch of three paragraphs, as [translate_list] numbers them. *)
Definition three_paragraphs : str :=
  py "(1) one




(2) two




(3) three".

Definition three_lines : list str := [py "(1) un"; py "(2) deux"; py "(3) trois"].

End Mock.

(** ** One remote call: routing, exceptions, fare *)

Module CallSpec.

(** What [get_translation] leaves alone of a state: everything but the two
    totals and the long-text log. *)
Definition same_session (st st' : State) : Prop :=
  pool st' = pool st /\ cursor st' = cursor st /\ key_len st' = key_len st
  /\ language st' = language st /\ deployment_id st' = deployment_id st
  /\ temperature st' = temperature st /\ api_key st' = api_key st
  /\ trace st' = trace st.

(** The rates of the ledger, prompt and completion: 3 and 4 for a model with
    "16k" in its name, 1.5 and 2 for another. *)
Definition rates (model : str) : Q * Q :=
  if contains (py "16k") model then (3%Q, 4%Q) else ((3 # 2)%Q, 2%Q).

(** What a total is worth, when it is [finite]. *)
Definition value (x : number) : Q :=
  match x with
  | Int n => inject_Z n
  | Float (Finite k) => (k # 2)%Q
  | Float _ => 0%Q
  end.

Definition finite (x : number) : Prop :=
  match x with
  | Float (Infinite _) | Float NaN => False
  | _ => True
  end.

(** Every multiple of 1/2 below 2^52 is a binary64 value. *)
Definition exact_limit : Q := inject_Z (2 ^ 52).

(** A total to which [cost] can be added exactly: it is not negative and
    the sum stays below the limit. *)
Definition fits (x : number) (cost : Q) : Prop :=
  finite x /\ (0 <= value x)%Q /\ (value x + cost < exact_limit)%Q.

(** The cost [fare] adds for a completion, zero when it adds nothing. *)
Definition prompt_cost (completion : Completion) : Q :=
  match model completion, usage completion with
  | Some m, Some u => (inject_Z (prompt_tokens u) * fst (rates m))%Q
  | _, _ => 0%Q
  end.

Definition completion_cost (completion : Completion) : Q :=
  match model completion, usage completion with
  | Some m, Some u => (inject_Z (completion_tokens u) * snd (rates m))%Q
  | _, _ => 0%Q
  end.

(** The fare of several completions, one after the other. *)
Definition bill (completions : list Completion) (st : State) : State :=
  fold_left (fun s c => snd (fare c s)) completions st.

Definition Qsum (l : list Q) : Q := fold_right Qplus 0%Q l.

(** Token counts are not negative. *)
Definition well_counted (completion : Completion) : Prop :=
  match usage completion with
  | Some u => (0 <= prompt_tokens u)%Z /\ (0 <= completion_tokens u)%Z
  | None => True
  end.

(** A completion whose fare the totals of [st] can take exactly. *)
Definition affordable (st : State) (completion : Completion) : Prop :=
  well_counted completion
  /\ fits (prompt_spent st) (prompt_cost completion)
  /\ fits (completion_spent st) (completion_cost completion).

Ltac break_match :=
  match goal with
  | |- context [match ?x with _ => _ end] => destruct x eqn:?
  | |- context [if ?x then _ else _] => destruct x eqn:?
  end.

Lemma fare_session (completion : Completion) (st : State) :
  same_session st (snd (fare completion st)).
Proof.
  unfold fare, spend. repeat break_match; simpl; repeat split.
Qed.

Section WithWorld.

Variable encode : str -> str -> list nat.
Variable service : nat -> option str -> Request -> Reply.
Variable console : Console.

(** The messages every request of [create_chat_completion_2pass] carries. *)
Definition messages_2pass (text : str) (st : State) : list (str * str) :=
  [ (py "system", system_message);
    (py "user", translation_prompt (language st));
    (py "assistant", py "OK");
    (py "user", user_payload text (language st)) ].

(** The text whose tokens decide the routing. *)
Definition routed_text (text : str) (st : State) : str :=
  system_message ++ translation_prompt (language st) ++ text ++ py "OK".

Lemma same_session_trans (a b c : State) :
  same_session a b -> same_session b c -> same_session a c.
Proof.
  unfold same_session. intros (A1 & A2 & A3 & A4 & A5 & A6 & A7 & A8)
                              (B1 & B2 & B3 & B4 & B5 & B6 & B7 & B8).
  rewrite B1, B2, B3, B4, B5, B6, B7, B8. repeat split; assumption.
Qed.

Lemma log_long_text_session (text : str) (st : State) :
  same_session st (snd (log_long_text console text st)).
Proof.
  unfold log_long_text, print_to. destruct (console _); simpl; repeat split.
Qed.

Lemma finish_translation_session (text : str) (completion : Completion) (st : State) :
  same_session st (snd (finish_translation console text completion st)).
Proof.
  unfold finish_translation.
  pose proof (fare_session completion st) as H.
  destruct (fare completion st) as [[[]|e] st1]; simpl in *; trivial.
  destruct (choices completion) as [cs|]; trivial.
  destruct (last (map Some cs) None) as [choice|]; trivial.
  destruct (str_eqb (finish_reason choice) _); trivial.
  pose proof (log_long_text_session text st1) as L.
  destruct (log_long_text console text st1) as [[[]|e] st2]; simpl in *;
    exact (same_session_trans _ _ _ H L).
Qed.

Lemma create_2pass_state (text : str) (st : State) :
  exists request,
    create_chat_completion_2pass encode service text st
    = ChatCompletion_create service request st
    /\ snd (create_chat_completion_2pass encode service text st)
       = record (Requested request) st.
Proof.
  assert (H : forall request,
             snd (ChatCompletion_create service request st)
             = record (Requested request) st).
  { intros request. unfold ChatCompletion_create.
    now destruct (service _ _ request). }
  unfold create_chat_completion_2pass.
  destruct (deployment_id st) as [[|c r]|];
    try destruct (_ <=? 1200); eexists; (split; [reflexivity | apply H]).
Qed.

(** One call of [get_translation] rotates the credential once, first, and
    sends one request; the session is otherwise as it was. *)
Lemma get_translation_session (text : str) (st : State) :
  let st' := snd (get_translation encode service console text st) in
  exists request,
    trace st' = trace st ++ [Rotated (fst (next_key st)); Requested request]
    /\ cursor st' = snd (next_key st)
    /\ api_key st' = Some (fst (next_key st))
    /\ pool st' = pool st /\ key_len st' = key_len st.
Proof.
  unfold get_translation. simpl.
  destruct (create_2pass_state text (rotate_key st)) as (request & _ & Hst).
  exists request.
  destruct (create_chat_completion_2pass encode service text (rotate_key st))
    as [[c|e] st1];
    simpl in Hst; subst st1.
  - pose proof (finish_translation_session text c
                  (record (Requested request) (rotate_key st))) as H.
    destruct H as (Hp & Hc & Hk & _ & _ & _ & Ha & Ht).
    rewrite Ht, Hc, Ha, Hp, Hk. simpl. rewrite <- app_assoc. repeat split.
  - simpl. rewrite <- app_assoc. repeat split.
Qed.

(** C9: with no deployment set the request goes to the long-context model
    when the tokens of the assembled prompt exceed 1200 and to the standard
    model otherwise; with a deployment set it goes to that deployment, whatever
    the tokens.  An empty deployment string counts as none. *)
Theorem routing (text : str) (st : State) :
  let unset := deployment_id st = None \/ deployment_id st = Some [] in
  let request target := mkRequest target (messages_2pass text st) (temperature st) in
  (unset -> 1200 < count_tokens encode (routed_text text st) ->
   create_chat_completion_2pass encode service text st
   = ChatCompletion_create service (request (Model (py "gpt-3.5-turbo-16k"))) st)
  /\ (unset -> count_tokens encode (routed_text text st) <= 1200 ->
      create_chat_completion_2pass encode service text st
      = ChatCompletion_create service (request (Model (py "gpt-3.5-turbo"))) st)
  /\ (forall d, deployment_id st = Some d -> d <> [] ->
      create_chat_completion_2pass encode service text st
      = ChatCompletion_create service (request (Engine d)) st).
Proof.
  unfold create_chat_completion_2pass, routed_text, messages_2pass.
  repeat split.
  - intros [H|H] Hn; rewrite H; apply Nat.leb_gt in Hn; now rewrite Hn.
  - intros [H|H] Hn; rewrite H; apply Nat.leb_le in Hn; now rewrite Hn.
  - intros d H Hd. rewrite H. destruct d; [contradiction | reflexivity].
Qed.

(** The [except] branch on a call that raised: [completion] is the empty
    dictionary, so the exception goes on. *)
Lemma get_translation_raise (text : str) (st st1 : State) (e : exception) :
  create_chat_completion_2pass encode service text (rotate_key st) = (Raise e, st1) ->
  get_translation encode service console text st = (Raise e, st1)
  /\ prompt_spent st1 = prompt_spent st
  /\ completion_spent st1 = completion_spent st
  /\ long_text_txt st1 = long_text_txt st.
Proof.
  intros H. unfold get_translation. rewrite H. simpl.
  destruct (create_2pass_state text (rotate_key st)) as (request & _ & Hst).
  rewrite H in Hst. simpl in Hst. subst st1. repeat split.
Qed.

(** C3: when [create_chat_completion_2pass] raises, [get_translation] raises
    the same exception, in the state the call left: the local [completion] is
    still the empty dictionary, on which the test of the handler re-raises;
    the totals and the long-text log are as before the call. *)
Theorem raise_is_reraised (text : str) (st st1 : State) (e : exception) :
  create_chat_completion_2pass encode service text (rotate_key st) = (Raise e, st1) ->
  get_translation encode service console text st = (Raise e, st1)
  /\ handler_reraises empty_dict = true
  /\ prompt_spent st1 = prompt_spent st
  /\ completion_spent st1 = completion_spent st
  /\ long_text_txt st1 = long_text_txt st.
Proof.
  intros H. destruct (get_translation_raise text st st1 e H) as (Hg & Hp & Hc & Hl).
  repeat split; trivial.
Qed.

(** Whatever the service left behind when the call failed, the call raises
    and [get_translation] with it. *)
Lemma failed_call_raises (text : str) (st : State) :
  exists request,
    forall e partial,
      service (requests (trace (rotate_key st))) (api_key (rotate_key st)) request
      = Raised e partial ->
      get_translation encode service console text st
      = (Raise e, record (Requested request) (rotate_key st)).
Proof.
  destruct (create_2pass_state text (rotate_key st)) as (request & Hc & _).
  exists request. intros e partial H.
  apply get_translation_raise. rewrite Hc. unfold ChatCompletion_create. now rewrite H.
Qed.

(** The totals after a call that returned are those [fare] computes. *)
Lemma returned_call_fare (text : str) (st st1 : State) (completion : Completion) :
  create_chat_completion_2pass encode service text (rotate_key st)
  = (Return completion, st1) ->
  let st' := snd (get_translation encode service console text st) in
  prompt_spent st' = prompt_spent (snd (fare completion st1))
  /\ completion_spent st' = completion_spent (snd (fare completion st1))
  /\ prompt_spent st1 = prompt_spent st
  /\ completion_spent st1 = completion_spent st.
Proof.
  intros H. unfold get_translation. rewrite H. simpl.
  destruct (create_2pass_state text (rotate_key st)) as (request & _ & Hst).
  rewrite H in Hst. simpl in Hst. subst st1.
  unfold finish_translation.
  destruct (fare completion _) as [[[]|e] st2]; simpl; auto.
  destruct (choices completion) as [cs|]; simpl; auto.
  destruct (last (map Some cs) None) as [choice|]; simpl; auto.
  destruct (str_eqb (finish_reason choice) _); simpl; auto.
  unfold log_long_text, print_to. destruct (console _); simpl; auto.
Qed.

End WithWorld.

Lemma routing_witness :
  let long_text := repeat "a"%char 400 in
  let request text st target :=
    mkRequest target (messages_2pass text st) (temperature st) in
  create_chat_completion_2pass Mock.encode Mock.steady long_text Mock.fresh
  = ChatCompletion_create Mock.steady
      (request long_text Mock.fresh (Model (py "gpt-3.5-turbo-16k"))) Mock.fresh
  /\ create_chat_completion_2pass Mock.encode Mock.steady (py "Hello") Mock.fresh
     = ChatCompletion_create Mock.steady
         (request (py "Hello") Mock.fresh (Model (py "gpt-3.5-turbo"))) Mock.fresh
  /\ create_chat_completion_2pass Mock.encode Mock.steady (py "Hello")
       (set_deployment_id (py "bbm") Mock.fresh)
     = ChatCompletion_create Mock.steady
         (request (py "Hello") (set_deployment_id (py "bbm") Mock.fresh)
                  (Engine (py "bbm")))
         (set_deployment_id (py "bbm") Mock.fresh).
Proof.
  cbv zeta. split; [|split].
  - apply (proj1 (routing Mock.encode Mock.steady (repeat "a"%char 400) Mock.fresh)).
    + left. reflexivity.
    + apply Nat.ltb_lt. vm_compute. reflexivity.
  - apply (proj1 (proj2 (routing Mock.encode Mock.steady (py "Hello") Mock.fresh))).
    + left. reflexivity.
    + apply Nat.leb_le. vm_compute. reflexivity.
  - apply (proj2 (proj2 (routing Mock.encode Mock.steady (py "Hello")
                           (set_deployment_id (py "bbm") Mock.fresh)))).
    + reflexivity.
    + discriminate.
Defined.

Lemma raise_is_reraised_witness :
  get_translation Mock.encode Mock.failing Mock.console (py "Hello") Mock.fresh
  = (Raise (ServiceError (py "timed out")),
     snd (create_chat_completion_2pass Mock.encode Mock.failing (py "Hello")
            (rotate_key Mock.fresh))).
Proof.
  apply (raise_is_reraised Mock.encode Mock.failing Mock.console (py "Hello")
           Mock.fresh).
  vm_compute. reflexivity.
Defined.

(** C2 on the code: a call that raises while the service had a reply cut at
    the output limit is not a degraded success.  [get_translation] raises the
    exception and writes nothing to the long-text log; the same reply handed
    back by a call that returns is used and logged. *)
Theorem truncated_partial_is_reraised :
  let text := py "Hello world" in
  handler_reraises Mock.truncated = false
  /\ (exists st',
        get_translation Mock.encode Mock.failing Mock.console text Mock.fresh
        = (Raise (ServiceError (py "timed out")), st')
        /\ long_text_txt st' = [])
  /\ (exists st',
        get_translation Mock.encode Mock.truncating Mock.console text Mock.fresh
        = (Return (py "Bonjour le"), st')
        /\ long_text_txt st' = long_text_record text).
Proof.
  cbv zeta. split; [reflexivity|].
  split; eexists; (split; [vm_compute; reflexivity | reflexivity]).
Qed.

Local Open Scope Q_scope.

Import NumberFacts.

(** From the rationals to the integers, for [lia]. *)
Ltac to_Z :=
  unfold exact_limit, Qlt, Qle, Qeq in *;
  cbn [value Qnum Qden Qplus Qmult inject_Z Pos.mul] in *;
  change (2 ^ 52)%Z with 4503599627370496%Z in *.

(** A bound below 2^53. *)
Ltac below_53 := change (2 ^ 53)%Z with 9007199254740992%Z; lia.

(** Below the limit a sum is exact, whether of [int]s or of floats. *)
Lemma add_exact (x y : number) :
  finite x -> finite y -> 0 <= value x -> 0 <= value y ->
  value x + value y < exact_limit ->
  exists z, add x y = Return z /\ finite z /\ value z == value x + value y.
Proof.
  destruct x as [m|[k| |]], y as [n|[l| |]]; simpl finite; try contradiction;
    intros _ _ Hx Hy Hlt.
  - exists (Int (m + n)). split; [reflexivity|]. split; [exact I|].
    to_Z. lia.
  - exists (Float (Finite (2 * m + l))). to_Z.
    split; [|split; [exact I|to_Z; lia]].
    cbn [add]. rewrite float_of_int_small by below_53. cbn [float_add].
    rewrite float_of_halves_small by below_53. reflexivity.
  - exists (Float (Finite (k + 2 * n))). to_Z.
    split; [|split; [exact I|to_Z; lia]].
    cbn [add]. rewrite float_of_int_small by below_53. cbn [float_add].
    rewrite float_of_halves_small by below_53. reflexivity.
  - exists (Float (Finite (k + l))). to_Z.
    split; [|split; [exact I|to_Z; lia]].
    cbn [add float_add]. rewrite float_of_halves_small by below_53. reflexivity.
Qed.

Lemma fits_eq (x : number) (c c' : Q) : c == c' -> fits x c -> fits x c'.
Proof. intros E (F & V & L). repeat split; trivial. now rewrite <- E. Qed.

Lemma fits_less (x : number) (c c' : Q) : c' <= c -> fits x c -> fits x c'.
Proof.
  intros E (F & V & L). repeat split; trivial.
  eapply Qle_lt_trans; [|exact L]. now apply Qplus_le_r.
Qed.

Lemma rate_nonneg (m : str) : 0 <= fst (rates m) /\ 0 <= snd (rates m).
Proof. unfold rates. destruct (contains _ m); split; discriminate. Qed.

Lemma Qle_add_nonneg (a b : Q) : 0 <= b -> a <= a + b.
Proof.
  intros H. rewrite <- (Qplus_0_r a) at 1. apply Qplus_le_r. exact H.
Qed.

Lemma tokens_cost_nonneg (n : Z) (rate : Q) :
  (0 <= n)%Z -> 0 <= rate -> 0 <= inject_Z n * rate.
Proof.
  intros Hn Hr. apply Qmult_le_0_compat; trivial.
  change 0 with (inject_Z 0). now rewrite <- Zle_Qle.
Qed.

Lemma cost_nonneg (completion : Completion) :
  well_counted completion ->
  0 <= prompt_cost completion /\ 0 <= completion_cost completion.
Proof.
  unfold well_counted, prompt_cost, completion_cost.
  destruct (model completion) as [m|]; [|split; discriminate].
  destruct (usage completion) as [u|]; [|split; discriminate].
  intros [Hp Hc]. destruct (rate_nonneg m).
  split; now apply tokens_cost_nonneg.
Qed.

(** The two statements of a branch of the fare, where both sums are
    exact. *)
Lemma spend_exact (prompt_cost : Outcome number) (cost completion_cost : number)
    (st : State) :
  prompt_cost = Return cost ->
  finite cost -> 0 <= value cost ->
  finite completion_cost -> 0 <= value completion_cost ->
  fits (prompt_spent st) (value cost) ->
  fits (completion_spent st) (value completion_cost) ->
  let st' := snd (spend prompt_cost completion_cost st) in
  fst (spend prompt_cost completion_cost st) = Return tt
  /\ finite (prompt_spent st') /\ finite (completion_spent st')
  /\ value (prompt_spent st') == value (prompt_spent st) + value cost
  /\ value (completion_spent st')
     == value (completion_spent st) + value completion_cost.
Proof.
  intros -> Fc Vc Fk Vk (Fp & Vp & Lp) (Fq & Vq & Lq). unfold spend.
  destruct (add_exact (prompt_spent st) cost Fp Fc Vp Vc Lp) as (x & -> & Fx & Vx).
  cbn [completion_spent set_prompt_spent].
  destruct (add_exact (completion_spent st) completion_cost Fq Fk Vq Vk Lq)
    as (y & -> & Fy & Vy).
  simpl. auto.
Qed.

(** The product of a count by 1.5, where it is exact. *)
Lemma times_1_5_exact (n : Z) :
  (0 <= n)%Z -> inject_Z n * (3 # 2) < exact_limit ->
  exists cost,
    times_1_5 n = Return cost /\ finite cost
    /\ value cost == inject_Z n * (3 # 2).
Proof.
  intros Hn Hlt. exists (Float (Finite (3 * n))). to_Z.
  split; [|split; [exact I | to_Z; lia]].
  apply times_1_5_small. below_53.
Qed.

(** The fare of a completion the totals can take exactly: each total grows
    by the cost of the completion, and by nothing when [fare] raises for want
    of a model or a usage. *)
Lemma fare_exact (completion : Completion) (st : State) :
  affordable st completion ->
  let st' := snd (fare completion st) in
  finite (prompt_spent st') /\ finite (completion_spent st')
  /\ value (prompt_spent st') == value (prompt_spent st) + prompt_cost completion
  /\ value (completion_spent st')
     == value (completion_spent st) + completion_cost completion.
Proof.
  unfold affordable, well_counted, fare, prompt_cost, completion_cost, rates.
  destruct (model completion) as [m|], (usage completion) as [u|];
    try (intros (_ & (Fp & _) & (Fc & _)); simpl;
         rewrite !Qplus_0_r; repeat split; trivial; reflexivity).
  intros ((Hp & Hc) & Fp & Fc).
  destruct (contains (py "16k") m); cbn [fst snd] in *.
  - set (cost := Int (prompt_tokens u * 3)).
    set (completion_cost := Int (completion_tokens u * 4)).
    assert (A1 : 0 <= value cost) by (subst cost; to_Z; lia).
    assert (A2 : 0 <= value completion_cost) by (subst completion_cost; to_Z; lia).
    assert (A3 : fits (prompt_spent st) (value cost))
      by (eapply fits_eq; [|exact Fp]; subst cost; to_Z; lia).
    assert (A4 : fits (completion_spent st) (value completion_cost))
      by (eapply fits_eq; [|exact Fc]; subst completion_cost; to_Z; lia).
    destruct (spend_exact (Return cost) cost completion_cost st eq_refl I A1 I A2 A3 A4)
      as (_ & F1 & F2 & V1 & V2).
    cbv zeta. repeat split; trivial.
  - assert (Lp : inject_Z (prompt_tokens u) * (3 # 2) < exact_limit).
    { destruct Fp as (_ & V & L). eapply Qle_lt_trans; [|exact L].
      rewrite Qplus_comm. now apply Qle_add_nonneg. }
    destruct (times_1_5_exact (prompt_tokens u) Hp Lp) as (cost & E & Fk & Vk).
    set (completion_cost := Int (completion_tokens u * 2)).
    assert (A1 : 0 <= value cost)
      by (rewrite Vk; apply tokens_cost_nonneg; trivial; discriminate).
    assert (A2 : 0 <= value completion_cost) by (subst completion_cost; to_Z; lia).
    assert (A3 : fits (prompt_spent st) (value cost))
      by (eapply fits_eq; [|exact Fp]; now rewrite Vk).
    assert (A4 : fits (completion_spent st) (value completion_cost))
      by (eapply fits_eq; [|exact Fc]; subst completion_cost; to_Z; lia).
    destruct (spend_exact (times_1_5 (prompt_tokens u)) cost completion_cost st
                E Fk A1 I A2 A3 A4)
      as (_ & F1 & F2 & V1 & V2).
    cbv zeta. repeat split; trivial. now rewrite V1, Vk.
Qed.

Lemma Qsum_nonneg (l : list Q) : Forall (fun q => 0 <= q) l -> 0 <= Qsum l.
Proof.
  induction 1 as [|q l Hq _ IH]; simpl; [apply Qle_refl|].
  eapply Qle_trans; [exact Hq | now apply Qle_add_nonneg].
Qed.

Lemma costs_nonneg (completions : list Completion) :
  Forall well_counted completions ->
  0 <= Qsum (map prompt_cost completions)
  /\ 0 <= Qsum (map completion_cost completions).
Proof.
  intros H. split; apply Qsum_nonneg, Forall_map;
    (eapply Forall_impl; [|exact H]); intros c Hc; now apply cost_nonneg.
Qed.

(** The fares of a series of completions add up. *)
Lemma bill_exact (completions : list Completion) :
  Forall well_counted completions ->
  forall st,
    fits (prompt_spent st) (Qsum (map prompt_cost completions)) ->
    fits (completion_spent st) (Qsum (map completion_cost completions)) ->
    finite (prompt_spent (bill completions st))
    /\ finite (completion_spent (bill completions st))
    /\ value (prompt_spent (bill completions st))
       == value (prompt_spent st) + Qsum (map prompt_cost completions)
    /\ value (completion_spent (bill completions st))
       == value (completion_spent st) + Qsum (map completion_cost completions).
Proof.
  induction 1 as [|c cs Hc Hcs IH]; intros st Fp Fc.
  - simpl. rewrite !Qplus_0_r. destruct Fp as (Fp & _), Fc as (Fc & _).
    repeat split; trivial; reflexivity.
  - destruct (cost_nonneg c Hc) as [Cp Cc].
    destruct (costs_nonneg cs Hcs) as [Sp Sc].
    cbn [map Qsum fold_right] in Fp, Fc. fold (Qsum (map prompt_cost cs)) in Fp.
    fold (Qsum (map completion_cost cs)) in Fc.
    destruct (fare_exact c st) as (F1 & F2 & V1 & V2).
    { split; [exact Hc|]. split; eapply fits_less; try eassumption;
        now apply Qle_add_nonneg. }
    cbv zeta in *.
    destruct (IH (snd (fare c st))) as (G1 & G2 & W1 & W2).
    + destruct Fp as (_ & V & L). split; [exact F1|]. split.
      * rewrite V1. eapply Qle_trans; [exact V | now apply Qle_add_nonneg].
      * now rewrite V1, <- Qplus_assoc.
    + destruct Fc as (_ & V & L). split; [exact F2|]. split.
      * rewrite V2. eapply Qle_trans; [exact V | now apply Qle_add_nonneg].
      * now rewrite V2, <- Qplus_assoc.
    + cbn [bill fold_left map Qsum fold_right].
      fold (bill cs (snd (fare c st))).
      fold (Qsum (map prompt_cost cs)). fold (Qsum (map completion_cost cs)).
      repeat split; trivial.
      * now rewrite W1, V1, Qplus_assoc.
      * now rewrite W2, V2, Qplus_assoc.
Qed.

(** A call of [get_translation] that has a completion handed back charges
    its cost, whatever becomes of the call afterwards. *)
Lemma get_translation_exact (encode : str -> str -> list nat)
    (service : nat -> option str -> Request -> Reply) (console : Console)
    (text : str) (st st1 : State) (completion : Completion) :
  create_chat_completion_2pass encode service text (rotate_key st)
  = (Return completion, st1) ->
  affordable st completion ->
  let st' := snd (get_translation encode service console text st) in
  finite (prompt_spent st') /\ finite (completion_spent st')
  /\ value (prompt_spent st') == value (prompt_spent st) + prompt_cost completion
  /\ value (completion_spent st')
     == value (completion_spent st) + completion_cost completion.
Proof.
  intros Hcall Hfit.
  destruct (returned_call_fare encode service console text st st1 completion Hcall)
    as (Hp & Hc & Hp1 & Hc1).
  cbv zeta. rewrite Hp, Hc, <- Hp1, <- Hc1. apply fare_exact.
  unfold affordable in *. now rewrite Hp1, Hc1.
Qed.

(** No call of [get_translation] lowers a total, however it ends. *)
Lemma get_translation_monotone (encode : str -> str -> list nat)
    (service : nat -> option str -> Request -> Reply) (console : Console)
    (text : str) (st : State) :
  (forall n key request completion,
      service n key request = Returned completion -> affordable st completion) ->
  let st' := snd (get_translation encode service console text st) in
  value (prompt_spent st) <= value (prompt_spent st')
  /\ value (completion_spent st) <= value (completion_spent st').
Proof.
  intros Hs. cbv zeta.
  destruct (create_chat_completion_2pass encode service text (rotate_key st))
    as [[c|e] st1] eqn:Hcall.
  - assert (Hfit : affordable st c).
    { destruct (create_2pass_state encode service text (rotate_key st))
        as (request & Hreq & _).
      rewrite Hreq in Hcall. unfold ChatCompletion_create in Hcall.
      destruct (service _ _ request) as [c'|e' p] eqn:Hr; [|discriminate].
      injection Hcall as <- _. exact (Hs _ _ _ _ Hr). }
    destruct (get_translation_exact encode service console text st st1 c Hcall Hfit)
      as (_ & _ & Vp & Vc).
    destruct (cost_nonneg c (proj1 Hfit)) as [Cp Cc].
    cbv zeta in Vp, Vc. rewrite Vp, Vc. split; now apply Qle_add_nonneg.
  - destruct (get_translation_raise encode service console text st st1 e Hcall)
      as (Hg & Hp & Hc & _).
    rewrite Hg. simpl. rewrite Hp, Hc. split; apply Qle_refl.
Qed.

(** Beyond 2^53 a float is not exact: 2^53 + 1 tokens are charged as 2^53
    are, and a total of 2^53 + 1, still an [int] after calls of the
    long-context model only, loses 1 when a float is added to it. *)
Lemma ledger_rounds_beyond :
  times_1_5 (2 ^ 53 + 1) = times_1_5 (2 ^ 53)
  /\ add (Int (2 ^ 53 + 1)) (Float (Finite 0)) = Return (Float (Finite (2 * 2 ^ 53))).
Proof. split; vm_compute; reflexivity. Qed.

(** C8: a completion with usage data adds its prompt tokens times the prompt
    rate to the prompt total and its completion tokens times the completion
    rate to the completion total, at the rates 3 and 4 when the model name
    has "16k" in it and 1.5 and 2 otherwise.  The products by 3, 4 and 2 and
    the sums of [int]s are exact whatever their size; the product by 1.5 is
    a float, and with it the prompt total: they are exact for token counts
    that are not negative and totals below 2^52.  Usage 100/50 on the
    long-context model adds 100*3 and 50*4, once and at each further call.
    The additions of a series of completions sum up, and neither total
    decreases, over a series of completions and at any call of
    [get_translation], however the call ends. *)
Theorem ledger_additive :
  (forall encode service console text st st1 completion m u,
      create_chat_completion_2pass encode service text (rotate_key st)
      = (Return completion, st1) ->
      model completion = Some m -> usage completion = Some u ->
      (0 <= prompt_tokens u)%Z -> (0 <= completion_tokens u)%Z ->
      let st' := snd (get_translation encode service console text st) in
      let long := contains (py "16k") m in
      let prompt_cost := inject_Z (prompt_tokens u) * (if long then 3 else 3 # 2) in
      let completion_cost := inject_Z (completion_tokens u) * (if long then 4 else 2) in
      fits (prompt_spent st) prompt_cost ->
      fits (completion_spent st) completion_cost ->
      finite (prompt_spent st') /\ finite (completion_spent st')
      /\ value (prompt_spent st') == value (prompt_spent st) + prompt_cost
      /\ value (completion_spent st') == value (completion_spent st) + completion_cost
      /\ value (prompt_spent st) <= value (prompt_spent st')
      /\ value (completion_spent st) <= value (completion_spent st'))
  /\ (forall encode service console text st st1 completion m u p c,
      create_chat_completion_2pass encode service text (rotate_key st)
      = (Return completion, st1) ->
      model completion = Some m -> usage completion = Some u ->
      prompt_spent st = Int p -> completion_spent st = Int c ->
      let st' := snd (get_translation encode service console text st) in
      let long := contains (py "16k") m in
      (long = true ->
       fst (fare completion st1) = Return tt
       /\ prompt_spent st' = Int (p + prompt_tokens u * 3))
      /\ (fst (fare completion st1) = Return tt ->
          completion_spent st'
          = Int (c + completion_tokens u * (if long then 4 else 2))))
  /\ (let once := snd (get_translation Mock.encode Mock.long_context Mock.console
                        (py "Hello") Mock.fresh) in
      let twice := snd (get_translation Mock.encode Mock.long_context Mock.console
                         (py "World") once) in
      prompt_spent once = Int (100 * 3) /\ completion_spent once = Int (50 * 4)
      /\ value (prompt_spent once) + value (completion_spent once) == 100 * 3 + 50 * 4
      /\ value (prompt_spent twice) + value (completion_spent twice)
         == (100 * 3 + 50 * 4) + (100 * 3 + 50 * 4))
  /\ (forall completions st,
      Forall well_counted completions ->
      fits (prompt_spent st) (Qsum (map prompt_cost completions)) ->
      fits (completion_spent st) (Qsum (map completion_cost completions)) ->
      value (prompt_spent (bill completions st))
      == value (prompt_spent st) + Qsum (map prompt_cost completions)
      /\ value (completion_spent (bill completions st))
         == value (completion_spent st) + Qsum (map completion_cost completions)
      /\ value (prompt_spent st) <= value (prompt_spent (bill completions st))
      /\ value (completion_spent st) <= value (completion_spent (bill completions st)))
  /\ (forall encode service console text st,
      (forall n key request completion,
          service n key request = Returned completion -> affordable st completion) ->
      let st' := snd (get_translation encode service console text st) in
      value (prompt_spent st) <= value (prompt_spent st')
      /\ value (completion_spent st) <= value (completion_spent st')).
Proof.
  split; [|split; [|split; [|split]]].
  - intros encode service console text st st1 c m u Hcall Hm Hu Hpt Hct.
    cbv zeta. intros Fp Fc.
    assert (Hfit : affordable st c).
    { unfold affordable, well_counted, prompt_cost, completion_cost, rates.
      rewrite Hm, Hu. destruct (contains (py "16k") m); auto. }
    destruct (get_translation_exact encode service console text st st1 c Hcall Hfit)
      as (F1 & F2 & V1 & V2).
    destruct (cost_nonneg c (proj1 Hfit)) as [Cp Cc].
    cbv zeta in V1, V2. unfold prompt_cost, completion_cost, rates in V1, V2, Cp, Cc.
    rewrite Hm, Hu in V1, V2, Cp, Cc.
    destruct (contains (py "16k") m); cbn [fst snd] in *;
      (split; [exact F1|]); (split; [exact F2|]); (split; [exact V1|]);
      (split; [exact V2|]); rewrite V1, V2; split; now apply Qle_add_nonneg.
  - intros encode service console text st st1 c m u p k Hcall Hm Hu Hp Hk.
    destruct (returned_call_fare encode service console text st st1 c Hcall)
      as (Hp' & Hk' & Hp1 & Hk1).
    cbv zeta. rewrite Hp', Hk'. unfold fare, spend. rewrite Hm, Hu, Hp1, Hp.
    destruct (contains (py "16k") m).
    + cbn [add set_prompt_spent completion_spent]. rewrite Hk1, Hk.
      cbn. auto.
    + split; [discriminate|].
      destruct (times_1_5 (prompt_tokens u)) as [cost|e]; [|discriminate].
      destruct (add (Int p) cost) as [prompt|e]; [|discriminate].
      cbn [add set_prompt_spent completion_spent]. rewrite Hk1, Hk.
      cbn. auto.
  - cbv zeta. repeat split; vm_compute; reflexivity.
  - intros completions st Hw Fp Fc.
    destruct (bill_exact completions Hw st Fp Fc) as (_ & _ & V1 & V2).
    destruct (costs_nonneg completions Hw) as [Sp Sc].
    split; [exact V1|]. split; [exact V2|].
    rewrite V1, V2. split; now apply Qle_add_nonneg.
  - apply get_translation_monotone.
Qed.

Lemma ledger_additive_witness :
  let st' := snd (get_translation Mock.encode Mock.steady Mock.console (py "Hello")
                    Mock.fresh) in
  value (prompt_spent st') == value (prompt_spent Mock.fresh) + inject_Z 100 * (3 # 2)
  /\ value (completion_spent st')
     == value (completion_spent Mock.fresh) + inject_Z 50 * 2
  /\ value (prompt_spent Mock.fresh) <= value (prompt_spent st').
Proof.
  cbv zeta.
  assert (Fp : fits (prompt_spent Mock.fresh) (inject_Z 100 * (3 # 2)))
    by (repeat split; discriminate).
  assert (Fc : fits (completion_spent Mock.fresh) (inject_Z 50 * 2))
    by (repeat split; discriminate).
  pose proof (proj1 ledger_additive Mock.encode Mock.steady Mock.console (py "Hello")
                Mock.fresh _ _ (py "gpt-3.5-turbo-0613") (mkUsage 100 50)
                eq_refl eq_refl eq_refl ltac:(discriminate) ltac:(discriminate)
                Fp Fc) as H.
  cbv zeta in H. destruct H as (_ & _ & Vp & Vc & Mp & _).
  split; [exact Vp|]. split; [exact Vc | exact Mp].
Defined.

End CallSpec.

(** ** The attempts of [translate] *)

Module RetrySpec.
Import CallSpec.

Definition raised {A : Type} (o : Outcome A) : bool :=
  match o with Raise _ => true | Return _ => false end.

(** The reply [translate] calls illegal, line 191. *)
Definition illegal (t_text : str) : bool :=
  contains (quoted "direct_trans" ++ py ":") t_text.

(** Lines 195-196: from the second attempt on, a reply that still carries a
    label is cut after the last one. *)
Definition cut (attempt_count : nat) (t_text : str) : str :=
  if contains (py "_trans" ++ [DQ] ++ py ":") t_text && (0 <? attempt_count)
  then last (split (py "_trans" ++ [DQ] ++ py ":") t_text) []
  else t_text.

Section WithWorld.

Variable encode : str -> str -> list nat.
Variable service : nat -> option str -> Request -> Reply.
Variable console : Console.
Variable text : str.

(** One attempt as the retry policy has it: a call of [get_translation],
    followed when it raises by a sleep of 60 / pool size seconds. *)
Definition attempt (st : State) : Outcome str * State :=
  match get_translation encode service console text st with
  | (Return t_text, st1) => (Return t_text, st1)
  | (Raise e, st1) => (Raise e, sleep (60 / key_len st1) st1)
  end.

(** The state after [n] attempts in a row, and the outcome of the attempt
    made after [i] others. *)
Fixpoint state_after (n : nat) (st : State) : State :=
  match n with
  | O => st
  | S m => snd (attempt (state_after m st))
  end.

Definition outcome_of (i : nat) (st : State) : Outcome str :=
  fst (attempt (state_after i st)).

(** How many of the first [n] attempts raised. *)
Fixpoint failures (n : nat) (st : State) : nat :=
  match n with
  | O => 0
  | S m => failures m st + (if raised (outcome_of m st) then 1 else 0)
  end.

(** An attempt after which [translate] goes round again: it raised, or it
    was the first and its reply was illegal. *)
Definition retried (i : nat) (o : Outcome str) : Prop :=
  match o with
  | Raise _ => True
  | Return t_text => i = 0 /\ illegal t_text = true
  end.

Lemma requests_app (a b : list Event) : requests (a ++ b) = requests a + requests b.
Proof. unfold requests. now rewrite filter_app, length_app. Qed.

Lemma rotations_app (a b : list Event) : rotations (a ++ b) = rotations a + rotations b.
Proof. unfold rotations. now rewrite filter_app, length_app. Qed.

Lemma sleeps_app (a b : list Event) : sleeps (a ++ b) = sleeps a ++ sleeps b.
Proof. apply filter_app. Qed.

(** What one attempt adds to the trace: a rotation, then a request, then a
    sleep when it raised. *)
Lemma attempt_trace (st : State) :
  exists request,
    trace (snd (attempt st))
    = trace st ++ [Rotated (fst (next_key st)); Requested request]
       ++ (if raised (fst (attempt st)) then [Slept (60 / key_len st)] else [])
    /\ key_len (snd (attempt st)) = key_len st
    /\ pool (snd (attempt st)) = pool st
    /\ cursor (snd (attempt st)) = snd (next_key st).
Proof.
  destruct (get_translation_session encode service console text st)
    as (request & Ht & Hc & _ & Hp & Hk).
  exists request. unfold attempt.
  destruct (get_translation encode service console text st) as [[t|e] st1]; simpl in *.
  - rewrite Ht. auto.
  - rewrite Ht, Hk, <- app_assoc. auto.
Qed.

Lemma state_after_counts (n : nat) (st : State) :
  rotations (trace (state_after n st)) = rotations (trace st) + n
  /\ requests (trace (state_after n st)) = requests (trace st) + n
  /\ sleeps (trace (state_after n st))
     = sleeps (trace st) ++ repeat (Slept (60 / key_len st)) (failures n st)
  /\ key_len (state_after n st) = key_len st.
Proof.
  induction n as [|n (IHr & IHq & IHs & IHk)]; simpl.
  - rewrite app_nil_r. repeat split; lia.
  - destruct (attempt_trace (state_after n st)) as (request & Ht & Hk & _).
    rewrite Ht, Hk, !rotations_app, !requests_app, !sleeps_app, IHr, IHq, IHs, IHk.
    unfold outcome_of.
    destruct (raised (fst (attempt (state_after n st))));
      unfold rotations, requests, sleeps; simpl.
    + rewrite repeat_app, <- app_assoc. simpl. repeat split; lia.
    + rewrite Nat.add_0_r, app_nil_r. repeat split; lia.
Qed.

(** One round of the loop of [translate], in terms of [attempt]. *)
Lemma translate_loop_step (fuel attempt_count : nat) (t_text : str) (st : State) :
  attempt_count < max_attempts ->
  translate_loop encode service console (S fuel) text attempt_count t_text st
  = match attempt st with
    | (Return t_text', st1) =>
        if illegal t_text' && (attempt_count =? 0)
        then translate_loop encode service console fuel text (attempt_count + 1)
                            t_text' st1
        else Some (Return (cut attempt_count t_text'), st1)
    | (Raise e, st2) =>
        if attempt_count + 1 =? max_attempts then Some (Raise e, st2)
        else translate_loop encode service console fuel text (attempt_count + 1)
                            t_text st2
    end.
Proof.
  intros H. apply Nat.ltb_lt in H. unfold attempt. cbn [translate_loop]. rewrite H.
  destruct (get_translation encode service console text st) as [[t|e] st1]; trivial.
  unfold illegal, cut.
  destruct (contains (quoted "direct_trans" ++ py ":") t && (attempt_count =? 0));
    trivial.
  now destruct (contains (py "_trans" ++ [DQ] ++ py ":") t && (0 <? attempt_count)).
Qed.

#[local] Arguments translate_loop : simpl never.

Ltac attempts_known :=
  repeat match goal with
         | H : attempt ?s = _ |- context [attempt ?s] => rewrite H; simpl
         end.

(** [translate] as a run of attempts: it ends after [n] of them, at most
    three, in the state they leave; every attempt but the last was retried,
    and the last one decides the outcome. *)
Lemma translate_run (st : State) :
  exists n out,
    1 <= n <= max_attempts
    /\ translate encode service console text st = Some (out, state_after n st)
    /\ (forall i, S i < n -> retried i (outcome_of i st))
    /\ match outcome_of (n - 1) st with
       | Raise e => n = max_attempts /\ out = Raise e
       | Return t_text => out = Return (cut (n - 1) t_text)
                          /\ (n = 1 -> illegal t_text = false)
       end.
Proof.
  unfold translate, max_attempts at 2.
  rewrite translate_loop_step by (unfold max_attempts; lia).
  destruct (attempt st) as [[t1|e1] s1] eqn:A1.
  - destruct (illegal t1) eqn:I1; simpl.
    + rewrite translate_loop_step by (unfold max_attempts; lia).
      destruct (attempt s1) as [[t2|e2] s2] eqn:A2.
      * rewrite andb_false_r.
        exists 2, (Return (cut 1 t2)). unfold outcome_of, max_attempts. simpl.
        attempts_known. repeat split; try lia; try discriminate.
        intros [|i] Hi; [|lia]. simpl. attempts_known. now split.
      * simpl. rewrite translate_loop_step by (unfold max_attempts; lia).
        destruct (attempt s2) as [[t3|e3] s3] eqn:A3.
        -- rewrite andb_false_r.
           exists 3, (Return (cut 2 t3)). unfold outcome_of, max_attempts. simpl.
           attempts_known. repeat split; try lia; try discriminate.
           intros [|[|i]] Hi; try lia; simpl; attempts_known; now try split.
        -- simpl. exists 3, (Raise e3). unfold outcome_of, max_attempts. simpl.
           attempts_known. repeat split; try lia.
           intros [|[|i]] Hi; try lia; simpl; attempts_known; now try split.
    + exists 1, (Return (cut 0 t1)). unfold outcome_of, max_attempts. simpl.
      attempts_known. repeat split; try lia; trivial.
  - simpl. rewrite translate_loop_step by (unfold max_attempts; lia).
    destruct (attempt s1) as [[t2|e2] s2] eqn:A2.
    + rewrite andb_false_r.
      exists 2, (Return (cut 1 t2)). unfold outcome_of, max_attempts. simpl.
      attempts_known. repeat split; try lia; try discriminate.
      intros [|i] Hi; [|lia]. simpl. now attempts_known.
    + simpl. rewrite translate_loop_step by (unfold max_attempts; lia).
      destruct (attempt s2) as [[t3|e3] s3] eqn:A3.
      * rewrite andb_false_r.
        exists 3, (Return (cut 2 t3)). unfold outcome_of, max_attempts. simpl.
        attempts_known. repeat split; try lia; try discriminate.
        intros [|[|i]] Hi; try lia; simpl; now attempts_known.
      * simpl. exists 3, (Raise e3). unfold outcome_of, max_attempts. simpl.
        attempts_known. repeat split; try lia.
        intros [|[|i]] Hi; try lia; simpl; now attempts_known.
Qed.

Lemma three_failures (st : State) (e1 e2 e3 : exception) :
  outcome_of 0 st = Raise e1 -> outcome_of 1 st = Raise e2 ->
  outcome_of 2 st = Raise e3 ->
  translate encode service console text st = Some (Raise e3, state_after 3 st).
Proof.
  intros H1 H2 H3.
  destruct (translate_run st) as (n & out & Hn & Ht & _ & Hlast).
  unfold max_attempts in *.
  assert (Hcases : n = 1 \/ n = 2 \/ n = 3) by lia.
  destruct Hcases as [-> | [-> | ->]]; simpl in Hlast.
  - rewrite H1 in Hlast. destruct Hlast; discriminate.
  - rewrite H2 in Hlast. destruct Hlast; discriminate.
  - rewrite H3 in Hlast. destruct Hlast as [_ ->]. exact Ht.
Qed.


End WithWorld.

Lemma split_from_length (sep : str) (s cur : str) (skip : nat) :
  1 <= List.length (split_from sep skip cur s).
Proof.
  revert cur skip. induction s as [|c r IH]; intros cur skip; simpl; [lia|].
  destruct skip; [|apply IH].
  destruct (startswith sep (c :: r)); [simpl; lia | apply IH].
Qed.

(** The pool has one credential per piece of the key, and [key_len] is its
    size. *)
Lemma init_key_len (key language : str) (temperature : Q) :
  key_len (init key language temperature)
  = List.length (pool (init key language temperature))
  /\ 1 <= key_len (init key language temperature).
Proof. split; [reflexivity | apply split_from_length]. Qed.


(** One failure: the second attempt is made under the next credential,
    after a sleep of 60 / 2 seconds. *)
Lemma flaky_service_retried :
  exists st',
    translate Mock.encode Mock.flaky Mock.console (py "Hello") Mock.fresh
    = Some (Return (py "(1) un
(2) deux
(3) trois"), st')
    /\ filter (fun e => negb (is_request e)) (trace st')
       = [Rotated (py "key-a"); Slept 30; Rotated (py "key-b")]
    /\ requests (trace st') = 2.
Proof. eexists. split; [|split]; vm_compute; reflexivity. Qed.

End RetrySpec.

(** ** The retry loop of [get_best_result_list] *)

Module ReconcilerSpec.
Import CallSpec RetrySpec.

Section WithWorld.

Variable encode : str -> str -> list nat.
Variable service : nat -> option str -> Request -> Reply.
Variable console : Console.

(** The configuration of the loop: the list parsed last, the best list so
    far, and the state. *)
Definition Config : Type := (list str * list str * State)%type.

(** [Iterations N new_str sleep_dur k c c']: from [c], the loop goes round
    [k] times and is then at [c'].  A round is made when the list parsed last
    misses the target; it sleeps, translates again, and keeps as best list
    the one [replaces_best] chooses. *)
Inductive Iterations (plist_len : nat) (new_str : str) (sleep_dur : nat)
  : nat -> Config -> Config -> Prop :=
| iterations_none (c : Config) :
    Iterations plist_len new_str sleep_dur 0 c c
| iterations_more (k : nat) (result_list best_result_list : list str) (st : State)
                  (result_list' : list str) (st' : State) (c : Config) :
    List.length result_list <> plist_len ->
    translate_and_split_lines encode service console new_str (sleep sleep_dur st)
    = Some (Return result_list', st') ->
    Iterations plist_len new_str sleep_dur k
               (result_list',
                if replaces_best plist_len best_result_list result_list'
                then result_list' else best_result_list,
                st') c ->
    Iterations plist_len new_str sleep_dur (S k)
               (result_list, best_result_list, st) c.

(** The acceptance rule, in words. *)
Definition accepted (plist_len : nat) (best_result_list result_list : list str)
  : Prop :=
  List.length result_list = plist_len
  \/ (List.length best_result_list < List.length result_list
      /\ List.length result_list <= plist_len)
  \/ (List.length result_list < List.length best_result_list
      /\ plist_len < List.length best_result_list).

Lemma replaces_best_accepted (plist_len : nat) (best result : list str) :
  replaces_best plist_len best result = true <-> accepted plist_len best result.
Proof.
  unfold replaces_best, accepted.
  rewrite !orb_true_iff, !andb_true_iff, Nat.eqb_eq, !Nat.ltb_lt, Nat.leb_le.
  tauto.
Qed.

Lemma translate_total (text : str) (st : State) :
  exists out st',
    translate encode service console text st = Some (out, st')
    /\ requests (trace st') <= requests (trace st) + 3.
Proof.
  destruct (translate_run encode service console text st) as (n & out & Hn & Ht & _).
  destruct (state_after_counts encode service console text n st) as (_ & Hq & _).
  exists out, (state_after encode service console text n st). split; trivial.
  unfold max_attempts in Hn. lia.
Qed.

Lemma translate_and_split_lines_total (text : str) (st : State) :
  exists out st',
    translate_and_split_lines encode service console text st = Some (out, st')
    /\ requests (trace st') <= requests (trace st) + 3.
Proof.
  destruct (translate_total text st) as (out & st' & Ht & Hq).
  unfold translate_and_split_lines. rewrite Ht.
  destruct out as [r|e]; eexists; eexists; split; try reflexivity; trivial.
Qed.

Lemma sleep_requests (seconds : nat) (st : State) :
  requests (trace (sleep seconds st)) = requests (trace st).
Proof. unfold sleep, record. simpl. rewrite requests_app. unfold requests. simpl. lia. Qed.

(** One round of the loop. *)
Lemma best_result_loop_step (fuel plist_len : nat) (new_str : str)
    (sleep_dur max_retries retry_count : nat)
    (result_list best_result_list : list str) (st : State) :
  retry_count < max_retries -> List.length result_list <> plist_len ->
  best_result_loop encode service console (S fuel) plist_len new_str sleep_dur
                   max_retries retry_count result_list best_result_list st
  = match translate_and_split_lines encode service console new_str
            (sleep sleep_dur st) with
    | None => None
    | Some (Raise e, st2) => Some (Raise e, st2)
    | Some (Return result_list', st2) =>
        best_result_loop encode service console fuel plist_len new_str sleep_dur
                         max_retries (retry_count + 1) result_list'
                         (if replaces_best plist_len best_result_list result_list'
                          then result_list' else best_result_list) st2
    end.
Proof.
  intros Hr Hl. apply Nat.ltb_lt in Hr. apply Nat.eqb_neq in Hl.
  cbn [best_result_loop]. now rewrite Hr, Hl.
Qed.

Lemma best_result_loop_stop (fuel plist_len : nat) (new_str : str)
    (sleep_dur max_retries retry_count : nat)
    (result_list best_result_list : list str) (st : State) :
  max_retries <= retry_count \/ List.length result_list = plist_len ->
  best_result_loop encode service console fuel plist_len new_str sleep_dur max_retries
                   retry_count result_list best_result_list st
  = Some (Return (best_result_list, retry_count), st).
Proof.
  intros H.
  assert (E : (retry_count <? max_retries)
              && negb (List.length result_list =? plist_len) = false).
  { destruct H as [H|H].
    - apply Nat.ltb_ge in H. now rewrite H.
    - apply Nat.eqb_eq in H. rewrite H. apply andb_false_r. }
  destruct fuel; cbn [best_result_loop]; now rewrite E.
Qed.

(** The loop as a run of rounds.  It ends after [k] of them by handing back
    the best list and the count, the last list on target or the count at the
    cap, or when the translation of a further round raises. *)
Lemma best_result_loop_run (fuel plist_len : nat) (new_str : str)
    (sleep_dur max_retries : nat) :
  forall (retry_count : nat) (result_list best_result_list : list str) (st : State),
    max_retries - retry_count <= fuel -> retry_count <= max_retries ->
    (List.length best_result_list = plist_len
     <-> List.length result_list = plist_len) ->
    exists k result_k best_k st_k,
      retry_count + k <= max_retries
      /\ Iterations plist_len new_str sleep_dur k
                    (result_list, best_result_list, st) (result_k, best_k, st_k)
      /\ requests (trace st_k) <= requests (trace st) + 3 * k
      /\ ((best_result_loop encode service console fuel plist_len new_str sleep_dur
                            max_retries retry_count result_list best_result_list st
           = Some (Return (best_k, retry_count + k), st_k)
           /\ (List.length result_k = plist_len \/ retry_count + k = max_retries)
           /\ (List.length best_k = plist_len <-> List.length result_k = plist_len))
          \/ (exists e st',
                 retry_count + k < max_retries
                 /\ List.length result_k <> plist_len
                 /\ translate_and_split_lines encode service console new_str
                      (sleep sleep_dur st_k) = Some (Raise e, st')
                 /\ requests (trace st') <= requests (trace st_k) + 3
                 /\ best_result_loop encode service console fuel plist_len new_str
                                     sleep_dur max_retries retry_count result_list
                                     best_result_list st
                    = Some (Raise e, st'))).
Proof.
  induction fuel as [|fuel IH]; intros rc result best st Hfuel Hrc Hinv.
  - exists 0, result, best, st. rewrite Nat.add_0_r.
    split; [exact Hrc|]. split; [constructor|]. split; [lia|]. left.
    split; [apply best_result_loop_stop; lia|]. split; [lia | exact Hinv].
  - destruct (Nat.eq_dec (List.length result) plist_len) as [Hlen|Hlen].
    { exists 0, result, best, st. rewrite Nat.add_0_r.
      split; [exact Hrc|]. split; [constructor|]. split; [lia|]. left.
      split; [apply best_result_loop_stop; now right|]. split; [now left | exact Hinv]. }
    destruct (Nat.eq_dec rc max_retries) as [Hcap|Hcap].
    { exists 0, result, best, st. rewrite Nat.add_0_r.
      split; [exact Hrc|]. split; [constructor|]. split; [lia|]. left.
      split; [apply best_result_loop_stop; left; lia|]. split; [now right | exact Hinv]. }
    rewrite best_result_loop_step by (trivial; lia).
    destruct (translate_and_split_lines_total new_str (sleep sleep_dur st))
      as (out & st2 & Ht & Hq).
    rewrite sleep_requests in Hq. rewrite Ht.
    destruct out as [result'|e].
    + set (best' := if replaces_best plist_len best result' then result' else best).
      destruct (IH (rc + 1) result' best' st2) as
        (k & result_k & best_k & st_k & Hk & Hrun & Hreq & Hend); try lia.
      { subst best'. destruct (replaces_best plist_len best result') eqn:E; [tauto|].
        split.
        - intros Hb. apply Hinv in Hb. contradiction.
        - intros Hr. exfalso.
          assert (A : replaces_best plist_len best result' = true)
            by (apply replaces_best_accepted; now left).
          congruence. }
      exists (S k), result_k, best_k, st_k.
      split; [lia|]. split; [econstructor; eassumption|]. split; [lia|].
      replace (rc + S k) with (rc + 1 + k) by lia.
      destruct Hend as [Hret | (e & st' & Hlt & Hne & Hraise & Hq' & Hloop)].
      * left. exact Hret.
      * right. exists e, st'. repeat split; trivial.
    + exists 0, result, best, st. rewrite Nat.add_0_r.
      split; [exact Hrc|]. split; [constructor|]. split; [lia|]. right.
      exists e, st2. repeat split; trivial; lia.
Qed.

(** A loop with fuel for the rounds it may still make comes to an end. *)
Lemma best_result_loop_total (plist_len : nat) (new_str : str)
    (sleep_dur max_retries : nat) (fuel : nat) :
  forall (retry_count : nat) (result_list best_result_list : list str) (st : State),
    max_retries - retry_count <= fuel ->
    exists out st',
      best_result_loop encode service console fuel plist_len new_str sleep_dur
                       max_retries retry_count result_list best_result_list st
      = Some (out, st').
Proof.
  induction fuel as [|fuel IH]; intros rc result best st Hfuel.
  - eexists. eexists. apply best_result_loop_stop. left. lia.
  - destruct (Nat.eq_dec (List.length result) plist_len) as [Hlen|Hlen].
    { eexists. eexists. apply best_result_loop_stop. now right. }
    destruct (le_lt_dec max_retries rc) as [Hcap|Hcap].
    { eexists. eexists. apply best_result_loop_stop. now left. }
    rewrite best_result_loop_step by trivial.
    destruct (translate_and_split_lines_total new_str (sleep sleep_dur st))
      as (out & st2 & Ht & _).
    rewrite Ht. destruct out as [result'|e].
    + apply IH. lia.
    + eexists. eexists. reflexivity.
Qed.

(** C1: in a round of the loop, the list parsed anew replaces the best list
    exactly when it has the target length, or is longer than the best list
    and not beyond the target, or is shorter than the best list while that
    one is beyond the target; otherwise the best list stays.  The list [best']
    so chosen is the one the loop goes on with, and the one it hands back,
    with the count of this round, when the round is its last: the new list
    is on target or the cap is reached.  With fuel for the rounds left the
    loop ends. *)
Theorem acceptance_rule (fuel plist_len : nat) (new_str : str)
    (sleep_dur max_retries retry_count : nat)
    (result_list best_result_list result_list' : list str) (st st' : State) :
  retry_count < max_retries -> List.length result_list <> plist_len ->
  translate_and_split_lines encode service console new_str (sleep sleep_dur st)
  = Some (Return result_list', st') ->
  let replaced :=
    List.length result_list' = plist_len
    \/ (List.length best_result_list < List.length result_list'
        /\ List.length result_list' <= plist_len)
    \/ (List.length result_list' < List.length best_result_list
        /\ plist_len < List.length best_result_list) in
  let round :=
    best_result_loop encode service console (S fuel) plist_len new_str sleep_dur
                     max_retries retry_count result_list best_result_list st in
  exists best',
    (replaced -> best' = result_list')
    /\ (~ replaced -> best' = best_result_list)
    /\ round
       = best_result_loop encode service console fuel plist_len new_str sleep_dur
                          max_retries (retry_count + 1) result_list' best' st'
    /\ (List.length result_list' = plist_len \/ retry_count + 1 = max_retries ->
        round = Some (Return (best', retry_count + 1), st'))
    /\ (max_retries - (retry_count + 1) <= fuel ->
        exists out st'', round = Some (out, st'')).
Proof.
  intros Hr Hl Ht replaced round.
  set (best' := if replaces_best plist_len best_result_list result_list'
                then result_list' else best_result_list).
  assert (Hround : round
                   = best_result_loop encode service console fuel plist_len new_str sleep_dur
                                      max_retries (retry_count + 1) result_list' best' st').
  { subst round best'. now rewrite best_result_loop_step, Ht by trivial. }
  exists best'. split; [|split; [|split; [exact Hround|split]]].
  - intros Hyes. subst best'.
    assert (A : replaces_best plist_len best_result_list result_list' = true)
      by (apply replaces_best_accepted; exact Hyes).
    now rewrite A.
  - intros Hno. subst best'.
    destruct (replaces_best plist_len best_result_list result_list') eqn:A; trivial.
    elim Hno. apply replaces_best_accepted. exact A.
  - intros Hlast. rewrite Hround. apply best_result_loop_stop.
    destruct Hlast as [Hlast|Hlast]; [now right | left; lia].
  - intros Hfuel. rewrite Hround. now apply best_result_loop_total.
Qed.

(** C6: a list that already has the target length is handed back as it is,
    with a count of 0, in the state as it was: no sleep and no translation. *)
Theorem aligned_at_once (plist_len : nat) (new_str : str) (sleep_dur : nat)
    (result_list : list str) (max_retries : nat) (st : State) :
  List.length result_list = plist_len ->
  get_best_result_list encode service console plist_len new_str sleep_dur result_list
                       max_retries st
  = Some (Return (result_list, 0), st).
Proof.
  intros H. unfold get_best_result_list. apply Nat.eqb_eq in H. now rewrite H.
Qed.

(** C5, as the code has it: with the default cap, the loop makes [k <= 15]
    rounds and ends.  Either it hands back the best list of these rounds and
    the count [k], the last list on target or the cap reached, the best list
    being on target exactly when the last one is; or the translation of one
    more round, within the cap, raises, and that exception leaves
    [get_best_result_list].  A list off target raises nothing. *)
Theorem bounded_retries (plist_len : nat) (new_str : str) (sleep_dur : nat)
    (result_list : list str) (st : State) :
  exists k result_k best_k st_k,
    k <= 15
    /\ Iterations plist_len new_str sleep_dur k
                  (result_list, result_list, st) (result_k, best_k, st_k)
    /\ requests (trace st_k) <= requests (trace st) + 3 * k
    /\ ((get_best_result_list encode service console plist_len new_str sleep_dur
                              result_list default_max_retries st
         = Some (Return (best_k, k), st_k)
         /\ (List.length result_k = plist_len \/ k = 15)
         /\ (List.length best_k = plist_len <-> List.length result_k = plist_len))
        \/ (exists e st',
               k < 15
               /\ List.length result_k <> plist_len
               /\ translate_and_split_lines encode service console new_str
                    (sleep sleep_dur st_k) = Some (Raise e, st')
               /\ get_best_result_list encode service console plist_len new_str
                                       sleep_dur result_list default_max_retries st
                  = Some (Raise e, st'))).
Proof.
  unfold get_best_result_list.
  destruct (List.length result_list =? plist_len) eqn:E.
  - apply Nat.eqb_eq in E. exists 0, result_list, result_list, st.
    split; [lia|]. split; [constructor|]. split; [lia|]. left.
    repeat split; auto.
  - destruct (best_result_loop_run default_max_retries plist_len new_str sleep_dur
                default_max_retries 0 result_list result_list st)
      as (k & result_k & best_k & st_k & Hk & Hrun & Hreq & Hend);
      try lia; try tauto.
    exists k, result_k, best_k, st_k. change (0 + k) with k in *.
    split; [exact Hk|]. split; [exact Hrun|]. split; [exact Hreq|].
    destruct Hend as [Hret | (e & st' & Hlt & Hne & Hraise & _ & Hloop)].
    + left. exact Hret.
    + right. exists e, st'. split; [exact Hlt|]. split; [exact Hne|].
      split; [exact Hraise | exact Hloop].
Qed.

End WithWorld.

Lemma acceptance_rule_witness :
  let st' :=
    match translate_and_split_lines Mock.encode Mock.steady Mock.console
            Mock.three_paragraphs (sleep 6 Mock.fresh) with
    | Some (_, s) => s
    | None => Mock.fresh
    end in
  best_result_loop Mock.encode Mock.steady Mock.console 15 3 Mock.three_paragraphs
                   6 15 0 [py "un deux trois"] [py "un deux trois"] Mock.fresh
  = Some (Return (Mock.three_lines, 1), st')
  /\ best_result_loop Mock.encode Mock.steady Mock.console 1 2 Mock.three_paragraphs
                      6 1 0 [py "un deux trois"] [py "un deux trois"] Mock.fresh
     = Some (Return ([py "un deux trois"], 1), st').
Proof.
  cbv zeta. split.
  - destruct (acceptance_rule Mock.encode Mock.steady Mock.console 14 3
                Mock.three_paragraphs 6 15 0
                [py "un deux trois"] [py "un deux trois"] Mock.three_lines Mock.fresh
                (match translate_and_split_lines Mock.encode Mock.steady Mock.console
                         Mock.three_paragraphs (sleep 6 Mock.fresh) with
                 | Some (_, s) => s
                 | None => Mock.fresh
                 end))
      as (best' & Hyes & _ & _ & Hlast & _).
    + lia.
    + discriminate.
    + vm_compute. reflexivity.
    + rewrite <- (Hyes (or_introl eq_refl)). apply Hlast. left. reflexivity.
  - destruct (acceptance_rule Mock.encode Mock.steady Mock.console 0 2
                Mock.three_paragraphs 6 1 0
                [py "un deux trois"] [py "un deux trois"] Mock.three_lines Mock.fresh
                (match translate_and_split_lines Mock.encode Mock.steady Mock.console
                         Mock.three_paragraphs (sleep 6 Mock.fresh) with
                 | Some (_, s) => s
                 | None => Mock.fresh
                 end))
      as (best' & _ & Hno & _ & Hlast & _).
    + lia.
    + discriminate.
    + vm_compute. reflexivity.
    + assert (E : best' = [py "un deux trois"]) by (apply Hno; simpl; lia).
      rewrite E in Hlast. apply Hlast. right. reflexivity.
Defined.

Lemma aligned_at_once_witness :
  get_best_result_list Mock.encode Mock.failing Mock.console 3 Mock.three_paragraphs 6
                       Mock.three_lines default_max_retries Mock.fresh
  = Some (Return (Mock.three_lines, 0), Mock.fresh).
Proof.
  apply (aligned_at_once Mock.encode Mock.failing Mock.console 3 Mock.three_paragraphs 6
           Mock.three_lines default_max_retries Mock.fresh).
  reflexivity.
Defined.

(** C5 as stated fails: when the service fails, the first round of the loop
    ends with the exception of [translate], and nothing is handed back. *)
Lemma failing_service_raises :
  (exists st',
      get_best_result_list Mock.encode Mock.failing Mock.console 3 Mock.three_paragraphs
                           6 [py "un deux trois"] default_max_retries Mock.fresh
      = Some (Raise (ServiceError (py "timed out")), st'))
  /\ (forall best retries st',
        get_best_result_list Mock.encode Mock.failing Mock.console 3 Mock.three_paragraphs 6
                             [py "un deux trois"] default_max_retries Mock.fresh
        <> Some (Return (best, retries), st')).
Proof.
  assert (H : exists st',
             get_best_result_list Mock.encode Mock.failing Mock.console 3 Mock.three_paragraphs 6
                                  [py "un deux trois"] default_max_retries Mock.fresh
             = Some (Raise (ServiceError (py "timed out")), st'))
    by (eexists; vm_compute; reflexivity).
  split; [exact H|]. destruct H as [st0 H]. intros best retries st'.
  rewrite H. discriminate.
Qed.

(** With a service that answers, the loop ends on the first list on target;
    with one whose lists never fit, it ends at the cap with the list it had. *)
Lemma steady_service_returns :
  (exists st',
      get_best_result_list Mock.encode Mock.steady Mock.console 3 Mock.three_paragraphs
                           6 [py "un deux trois"] default_max_retries Mock.fresh
      = Some (Return (Mock.three_lines, 1), st'))
  /\ (exists st',
        get_best_result_list Mock.encode Mock.steady Mock.console 2 Mock.three_paragraphs 6
                             [py "un deux trois"] default_max_retries Mock.fresh
        = Some (Return ([py "un deux trois"], 15), st')
        /\ requests (trace st') = 15).
Proof.
  split; eexists; [|split]; vm_compute; reflexivity.
Qed.

(** Lists of 2, 4 and 5 segments against a target of 5: the list of 4 and then
    the list of 5 replace the best list, and the loop ends there, after two
    retries; the reply of three lines is never asked for. *)
Lemma hill_climb :
  exists st',
    get_best_result_list Mock.encode Mock.climbing Mock.console 5 Mock.three_paragraphs
                         6 [py "a b"; py "c d e"] default_max_retries Mock.fresh
    = Some (Return ([py "(1) a"; py "(2) b"; py "(3) c"; py "(4) d"; py "(5) e"], 2),
            st')
    /\ requests (trace st') = 2.
Proof. eexists. split; vm_compute; reflexivity. Qed.

End ReconcilerSpec.

(** ** The batch: [join_lines], the logs, [translate_list] *)

Module Batch.

(** [f"{i}"] for an [int]. *)
Definition str_of_nat (n : nat) : str := py (DecimalString.NilZero.string_of_uint (Nat.to_uint n)).
Definition str_of_Z (z : Z) : str := py (DecimalString.NilZero.string_of_int (Z.to_int z)).

(** [s.endswith(suffix)] *)
Definition endswith (suffix s : str) : bool := startswith (rev suffix) (rev s).

(** The [for] loop of [join_lines], lines 303-313: [temp_line] gathers the
    stripped lines of a paragraph, which a blank line or the end closes. *)
Fixpoint join_lines_loop (lines new_lines temp_line : list str) : list str :=
  match lines with
  | [] =>
      if negb (Nat.eqb (List.length temp_line) 0)
      then new_lines ++ [join (py " ") temp_line] else new_lines
  | line :: rest =>
      if negb (is_empty (strip line)) then
        join_lines_loop rest new_lines (temp_line ++ [strip line])
      else
        let new_lines :=
          if negb (Nat.eqb (List.length temp_line) 0)
          then new_lines ++ [join (py " ") temp_line] else new_lines in
        join_lines_loop rest (new_lines ++ [line]) []
  end.

(** [join_lines] *)
Definition join_lines (text : str) : str :=
  let lines := splitlines text in
  let new_lines := join_lines_loop lines [] [] in
  let text := join [LF] new_lines in
  let text := replace (py "^M") [CR] text in
  let lines := splitlines text in
  let filtered_lines :=
    filter (fun line => negb (str_eqb (strip line) [CR])) lines in
  join [LF] filtered_lines.

(** What is written to a file opened for appending: from the contents of
    the file to an outcome and the contents afterwards.  One [print] follows
    another unless it raised. *)
Definition Writer : Type := str -> Outcome unit * str.

Definition done : Writer := fun file => (Return tt, file).

Definition and_then (first next : Writer) : Writer :=
  fun file =>
    match first file with
    | (Return _, file') => next file'
    | (Raise e, file') => (Raise e, file')
    end.

Notation "first ;; next" := (and_then first next)
  (at level 61, right associativity).

Section WithConsole.

Variable console : Console.

(** [log_retry]; [elapsed] is the text of [{elapsed_time:.1f}]. *)
Definition log_retry (state : str) (retry_count : nat) (elapsed : str) : Writer :=
  if retry_count =? 0 then done
  else print_to console
         [py "retry " ++ state ++ py ", count = " ++ str_of_nat retry_count
             ++ py ", time = " ++ elapsed ++ py "s"].

(** The [for] loop of [log_translation_mismatch], lines 283-290, from index
    [i] on; [rest] is [newlist] from that index. *)
Fixpoint mismatch_loop (rest : list str) (i : nat) (result_list : list str)
  : Writer :=
  match rest with
  | [] => done
  | source :: rest' =>
      print_to console [source] ;;
      print_to console [] ;;
      (if i <? List.length result_list then
         print_to console [py "............................................"] ;;
         print_to console [nth i result_list []] ;;
         print_to console []
       else done) ;;
      print_to console [py "============================="] ;;
      mismatch_loop rest' (S i) result_list
  end.

(** [log_translation_mismatch] *)
Definition log_translation_mismatch (plist_len : nat) (result_list : list str)
    (new_str sep : str) : Writer :=
  if List.length result_list =? plist_len then done
  else
    let newlist := split sep new_str in
    print_to console
      [py "problem size: "
          ++ str_of_Z (Z.of_nat plist_len - Z.of_nat (List.length result_list))%Z] ;;
    mismatch_loop newlist 0 result_list.

End WithConsole.

(** The separator of [translate_list]. *)
Definition sep : str := [LF; LF; LF; LF; LF].

Section WithWorld.

Variable encode : str -> str -> list nat.
Variable service : nat -> option str -> Request -> Reply.
Variable console : Console.

(** A paragraph of the document, and its text once the [sup] elements are
    taken out of a copy: [temp_p.get_text()]. *)
Variable Paragraph : Type.
Variable get_text : Paragraph -> str.

(** [time.time()] where the process stands, and the format [.1f]. *)
Variable now : State -> Q.
Variable fixed1 : Q -> str.

(** The [for] loop of [translate_list], lines 331-336. *)
Fixpoint number_loop (plist : list Paragraph) (i : nat) (new_str : str) : str :=
  match plist with
  | [] => new_str
  | p :: rest =>
      number_loop rest (i + 1)
        (new_str ++ py "(" ++ str_of_nat i ++ py ") " ++ strip (get_text p) ++ sep)
  end.

(** Lines 329-339: [new_str] before [join_lines], the text of the loop with
    the separator at its end cut off. *)
Definition numbered_text (plist : list Paragraph) : str :=
  let new_str := number_loop plist 1 [] in
  if endswith sep new_str
  then firstn (List.length new_str - List.length sep) new_str
  else new_str.

(** Lines 329-341: the text sent for a list of paragraphs. *)
Definition batch_text (plist : list Paragraph) : str :=
  let new_str := numbered_text plist in
  join_lines new_str.

(** [translate_list]: the outcome, the state and the contents of
    log/buglog.txt. *)
Definition translate_list (plist : list Paragraph) (st : State) (buglog : str)
  : option (Outcome (list str) * State * str) :=
  let new_str := batch_text plist in
  let plist_len := List.length plist in
  match translate_and_split_lines encode service console new_str st with
  | None => None
  | Some (Raise e, st1) => Some (Raise e, st1, buglog)
  | Some (Return result_list, st1) =>
      let start_time := now st1 in
      match get_best_result_list encode service console plist_len new_str 6 result_list
                                 default_max_retries st1 with
      | None => None
      | Some (Raise e, st2) => Some (Raise e, st2, buglog)
      | Some (Return (result_list, retry_count), st2) =>
          let end_time := now st2 in
          let state :=
            if negb (List.length result_list =? plist_len)
            then py "fail" else py "success" in
          match (log_retry console state retry_count
                           (fixed1 (end_time - start_time)%Q) ;;
                 log_translation_mismatch console plist_len result_list new_str sep)
                  buglog with
          | (Raise e, buglog) => Some (Raise e, st2, buglog)
          | (Return _, buglog) =>
              Some (Return (strip_numbering result_list), st2, buglog)
          end
      end
  end.

End WithWorld.

(** [num_tokens_from_text] of utils.py.  [Encoding] is a [tiktoken]
    encoding; [encoding_for_model] is [None] where it raises [KeyError]. *)
Section Tokens.

Variable Encoding : Type.
Variable encoding_for_model : str -> option Encoding.
Variable get_encoding : str -> Encoding.
Variable encode_with : Encoding -> str -> list nat.

(** The inner loop over the items of one message. *)
Fixpoint count_items (encoding : Encoding) (name_bonus : Z)
    (items : list (str * str)) (num_tokens : Z) : Z :=
  match items with
  | [] => num_tokens
  | (key, value) :: rest =>
      let num_tokens :=
        (num_tokens + Z.of_nat (List.length (encode_with encoding value)))%Z in
      let num_tokens :=
        if str_eqb key (py "name") then (num_tokens + name_bonus)%Z
        else num_tokens in
      count_items encoding name_bonus rest num_tokens
  end.

(** The outer loop over the messages. *)
Fixpoint count_messages (encoding : Encoding) (per_message name_bonus : Z)
    (messages : list (list (str * str))) (num_tokens : Z) : Z :=
  match messages with
  | [] => num_tokens
  | message :: rest =>
      count_messages encoding per_message name_bonus rest
        (count_items encoding name_bonus message (num_tokens + per_message)%Z)
  end.

Definition num_tokens_from_text (text model : str) : Z :=
  let messages := [ [ (py "role", py "user"); (py "content", text) ] ] in
  let encoding :=
    match encoding_for_model model with
    | Some encoding => encoding
    | None => get_encoding (py "cl100k_base")
    end in
  if existsb (str_eqb model) [py "gpt-3.5-turbo-0301"] then
    (count_messages encoding 4 (-1) messages 0 + 2)%Z
  else
    (count_messages encoding 3 1 messages 0 + 3)%Z.

End Tokens.

End Batch.

Import Batch.

(** ** Further properties of the text functions *)

Module TextMore.
Import TextFacts ParserFacts.

Lemma lstrip_strip (s : str) : lstrip (strip s) = strip s.
Proof. unfold strip. apply lstrip_rstrip, lstrip_idem. Qed.

(** No stripped line is a lone carriage return. *)
Lemma strip_not_CR (s : str) : strip s <> [CR].
Proof.
  intros H. pose proof (lstrip_strip s) as L. rewrite H in L. discriminate.
Qed.

Lemma join_cons (sep x : str) (y : str) (rest : list str) :
  join sep (x :: y :: rest) = x ++ sep ++ join sep (y :: rest).
Proof. reflexivity. Qed.

(** Lines without a boundary inside, the last one not empty, are read back
    from their text as they are. *)
Lemma splitlines_join (ls : list str) :
  Forall no_break ls -> is_empty (last ls (py "x")) = false ->
  splitlines (join [LF] ls) = ls.
Proof.
  unfold splitlines. induction 1 as [|x rest Hx Hrest IH]; intros Hlast; trivial.
  destruct rest as [|y rest].
  - simpl in *. pose proof (splitlines_from_line x [] [] Hx) as E.
    rewrite app_nil_r in E. rewrite E. simpl. now rewrite Hlast.
  - rewrite join_cons. simpl app.
    rewrite (splitlines_from_line x _ [] Hx), splitlines_from_LF. simpl app.
    f_equal. apply IH. exact Hlast.
Qed.

Lemma startswith_app (p q : str) : startswith p (p ++ q) = true.
Proof.
  induction p as [|c p IH]; simpl; [now destruct q|].
  now rewrite Ascii.eqb_refl.
Qed.

Lemma startswith_prefix (p s : str) :
  startswith p s = true -> exists q, s = p ++ q.
Proof.
  revert s. induction p as [|c p IH]; intros s H.
  - now exists s.
  - destruct s as [|d s]; [discriminate|]. simpl in H.
    apply andb_prop in H as [Hc Hp]. apply Ascii.eqb_eq in Hc. subst d.
    destruct (IH s Hp) as [q ->]. now exists q.
Qed.

Lemma contains_false_startswith (sub s : str) :
  contains sub s = false -> startswith sub s = false.
Proof.
  destruct s; simpl; intros H; now apply orb_false_elim in H as [H _].
Qed.

(** A text without the separator is one piece. *)
Lemma split_from_one_piece (sep s cur : str) :
  contains sep s = false -> split_from sep 0 cur s = [cur ++ s].
Proof.
  revert cur. induction s as [|c r IH]; intros cur H.
  - simpl. now rewrite app_nil_r.
  - pose proof (contains_false_startswith _ _ H) as Hs.
    simpl in H. apply orb_false_elim in H as [_ Hr].
    cbn [split_from]. rewrite Hs, IH by exact Hr.
    now rewrite <- app_assoc.
Qed.

Lemma replace_absent (old new s : str) :
  contains old s = false -> replace old new s = s.
Proof.
  intros H. unfold replace, split. now rewrite split_from_one_piece.
Qed.

Lemma split_from_nonempty (sep s cur : str) (skip : nat) :
  split_from sep skip cur s <> [].
Proof.
  revert cur skip. induction s as [|c r IH]; intros cur skip; simpl; [discriminate|].
  destruct skip; [|apply IH].
  destruct (startswith sep (c :: r)); [discriminate | apply IH].
Qed.

Lemma join_pieces (sep x : str) (rest : list str) :
  rest <> [] -> join sep (x :: rest) = x ++ sep ++ join sep rest.
Proof. destruct rest; [contradiction | reflexivity]. Qed.

(** The round trip of [split] and [join], with the characters of the
    separator still to pass over. *)
Lemma join_split_from (sep s cur : str) (skip : nat) :
  sep <> [] -> join sep (split_from sep skip cur s) = cur ++ skipn skip s.
Proof.
  intros Hsep. revert cur skip.
  induction s as [|c r IH]; intros cur skip.
  - simpl. now rewrite skipn_nil, app_nil_r.
  - destruct skip as [|k]; [|simpl; apply IH].
    cbn [split_from]. destruct (startswith sep (c :: r)) eqn:E.
    + rewrite join_pieces by apply split_from_nonempty.
      rewrite IH. simpl app.
      destruct (startswith_prefix _ _ E) as [q Hq].
      destruct sep as [|d sep']; [contradiction|].
      simpl in Hq. injection Hq as -> ->.
      replace (List.length (d :: sep') - 1) with (List.length sep')
        by (simpl; lia).
      rewrite skipn_app, skipn_all, Nat.sub_diag. reflexivity.
    + rewrite IH. simpl. now rewrite <- app_assoc.
Qed.

End TextMore.

(** ** [join_lines] *)

Module JoinLinesSpec.
Import TextFacts ParserFacts TextMore.

Lemma filter_kept {A : Type} (f : A -> bool) (l : list A) :
  (forall x, f x = true) -> filter f l = l.
Proof.
  intros H. induction l as [|x l IH]; simpl; trivial. now rewrite H, IH.
Qed.

Lemma str_eqb_false (a b : str) : a <> b -> str_eqb a b = false.
Proof. intros H. unfold str_eqb. now destruct (list_eq_dec ascii_dec a b). Qed.

(** The only line boundary of lines written one per line is LF. *)
Definition breaks_at_LF (s : str) : Prop :=
  Forall (fun c => is_linebreak c = true -> c = LF) s.

Lemma no_break_breaks_at_LF (s : str) : no_break s -> breaks_at_LF s.
Proof.
  intros H. eapply Forall_impl; [|exact H]. simpl. intros c Hc Hb. congruence.
Qed.

Lemma join_LF_breaks (ls : list str) :
  Forall no_break ls -> breaks_at_LF (join [LF] ls).
Proof.
  induction 1 as [|x rest Hx Hrest IH]; [constructor|].
  destruct rest as [|y rest]; [now apply no_break_breaks_at_LF|].
  rewrite join_cons. apply Forall_app. split; [now apply no_break_breaks_at_LF|].
  constructor; trivial.
Qed.

Lemma join_lines_unfiltered (text : str) :
  join_lines text
  = join [LF]
      (splitlines
         (replace (py "^M") [CR]
            (join [LF] (join_lines_loop (splitlines text) [] [])))).
Proof.
  unfold join_lines. rewrite filter_kept; trivial.
  intros x. rewrite str_eqb_false; trivial. apply strip_not_CR.
Qed.

(** X1: the filter of the lines that strip to a carriage return, lines
    319-320, drops no line, and every line boundary of the text
    [join_lines] returns is LF: it has no carriage return. *)
Theorem join_lines_breaks (text : str) :
  join_lines text
  = join [LF]
      (splitlines
         (replace (py "^M") [CR]
            (join [LF] (join_lines_loop (splitlines text) [] []))))
  /\ breaks_at_LF (join_lines text)
  /\ ~ In CR (join_lines text).
Proof.
  pose proof (join_lines_unfiltered text) as E.
  assert (B : breaks_at_LF (join_lines text)).
  { rewrite E. apply join_LF_breaks. apply splitlines_from_no_break. constructor. }
  split; [exact E|]. split; [exact B|].
  intros H. unfold breaks_at_LF in B. rewrite Forall_forall in B.
  specialize (B CR H eq_refl). discriminate.
Qed.

Definition blank (line : str) : bool := is_empty (strip line).

(** The loop on lines none of which is blank: one paragraph. *)
Lemma join_lines_loop_paragraph (ls new_lines temp_line : list str) :
  Forall (fun l => blank l = false) ls -> temp_line ++ ls <> [] ->
  join_lines_loop ls new_lines temp_line
  = new_lines ++ [join (py " ") (temp_line ++ map strip ls)].
Proof.
  intros H. revert temp_line. induction H as [|l ls Hl _ IH]; intros temp Hne.
  - rewrite app_nil_r in *. simpl.
    destruct temp; [contradiction | reflexivity].
  - cbn [join_lines_loop]. unfold blank in Hl. rewrite Hl. simpl negb.
    rewrite IH, <- app_assoc; [reflexivity|].
    destruct temp; discriminate.
Qed.

Lemma no_break_join (sepp : str) (ls : list str) :
  no_break sepp -> Forall no_break ls -> no_break (join sepp ls).
Proof.
  intros Hs. induction 1 as [|x rest Hx Hrest IH]; [constructor|].
  destruct rest as [|y rest]; trivial.
  rewrite join_cons. apply no_break_app. split; trivial.
  apply no_break_app. now split.
Qed.

Lemma strip_no_break (s : str) : no_break s -> no_break (strip s).
Proof. intros H. now destruct (strip_tidy s H). Qed.

Lemma join_not_empty (sepp x : str) (rest : list str) :
  is_empty x = false -> is_empty (join sepp (x :: rest)) = false.
Proof. destruct x; [discriminate|]. now destruct rest. Qed.

Lemma last_not_blank (ls : list str) (d : str) :
  ls <> [] -> Forall (fun l => blank l = false) ls -> is_empty (last ls d) = false.
Proof.
  intros Hne H. induction H as [|x rest Hx Hrest IH]; [contradiction|].
  destruct rest as [|y rest].
  - simpl. destruct x; [discriminate | reflexivity].
  - apply IH. discriminate.
Qed.

(** X2: lines that follow each other without a blank line between them come
    out as one line, each stripped, with single spaces between. *)
Theorem join_lines_wraps (ls : list str) :
  ls <> [] -> Forall no_break ls -> Forall (fun l => blank l = false) ls ->
  contains (py "^M") (join (py " ") (map strip ls)) = false ->
  join_lines (join [LF] ls) = join (py " ") (map strip ls).
Proof.
  intros Hne Hbr Hbl Hcaret.
  rewrite join_lines_unfiltered.
  rewrite splitlines_join by (trivial; now apply last_not_blank).
  rewrite join_lines_loop_paragraph by (trivial; now destruct ls).
  simpl app. simpl join at 2. rewrite replace_absent by exact Hcaret.
  set (line := join (py " ") (map strip ls)).
  assert (Hline : no_break line).
  { apply no_break_join.
    - constructor; [reflexivity | constructor].
    - apply Forall_map. eapply Forall_impl; [|exact Hbr].
      intros l. apply strip_no_break. }
  assert (Hfull : is_empty line = false).
  { subst line. destruct ls as [|l ls]; [contradiction|].
    simpl map. apply join_not_empty. inversion Hbl. assumption. }
  assert (Hone : splitlines line = [line]).
  { apply (splitlines_join [line]); trivial.
    constructor; [exact Hline | constructor]. }
  change (join [" "%char] (map strip ls)) with line. now rewrite Hone.
Qed.

End JoinLinesSpec.

(** ** The text of a batch *)

Module BatchTextSpec.
Import TextFacts ParserFacts TextMore JoinLinesSpec.

(** Lines in which no two lines of text follow each other: the empty lines
    apart, each line is a tidy line of text; [after_text] tells that the line
    before is one. *)
Fixpoint lone (after_text : bool) (ls : list str) : Prop :=
  match ls with
  | [] => True
  | l :: rest =>
      (l = [] /\ lone false rest)
      \/ (after_text = false /\ tidy l /\ l <> [] /\ lone true rest)
  end.

(** Paragraphs of one line each, as [sep] sets them apart: four empty lines
    between two of them. *)
Fixpoint spread (ps : list str) : list str :=
  match ps with
  | [] => []
  | [p] => [p]
  | p :: rest => p :: [] :: [] :: [] :: [] :: spread rest
  end.

(** [f"({i}) {text}"] *)
Definition numbered (i : nat) (text : str) : str :=
  py "(" ++ str_of_nat i ++ py ") " ++ text.

(** The numbered paragraphs, counted from [i]. *)
Fixpoint numbered_from {Paragraph : Type} (get_text : Paragraph -> str)
    (i : nat) (plist : list Paragraph) : list str :=
  match plist with
  | [] => []
  | p :: rest =>
      numbered i (strip (get_text p)) :: numbered_from get_text (i + 1) rest
  end.

Fixpoint ends_with (a : ascii) (s : str) : bool :=
  match s with
  | [] => false
  | [c] => Ascii.eqb c a
  | _ :: r => ends_with a r
  end.

Definition starts_with (b : ascii) (s : str) : bool :=
  match s with
  | c :: _ => Ascii.eqb c b
  | [] => false
  end.

Lemma join_lines_loop_lone (ls : list str) :
  forall new_lines,
    (lone false ls -> join_lines_loop ls new_lines [] = new_lines ++ ls)
    /\ (forall t, lone true ls ->
                  join_lines_loop ls new_lines [t] = new_lines ++ t :: ls).
Proof.
  induction ls as [|l rest IH]; intros new_lines.
  - split; [intros _ | intros t _]; simpl; [now rewrite app_nil_r | reflexivity].
  - split.
    + intros [[-> Hrest] | (_ & Hl & Hne & Hrest)].
      * cbn [join_lines_loop]. simpl.
        rewrite (proj1 (IH _) Hrest), <- app_assoc. reflexivity.
      * cbn [join_lines_loop]. rewrite (strip_of_tidy l Hl).
        destruct l as [|c l']; [contradiction|]. simpl.
        apply (proj2 (IH _) _ Hrest).
    + intros t [[-> Hrest] | (Hfalse & _)]; [|discriminate].
      cbn [join_lines_loop]. simpl.
      rewrite (proj1 (IH _) Hrest), <- !app_assoc. reflexivity.
Qed.

Lemma spread_cons (q : str) (rest : list str) :
  exists xs, spread (q :: rest) = q :: xs.
Proof. destruct rest; simpl; eauto. Qed.

Lemma join_sep_spread (ps : list str) : join sep ps = join [LF] (spread ps).
Proof.
  induction ps as [|p rest IH]; trivial.
  destruct rest as [|q rest]; trivial.
  rewrite join_cons, IH.
  change (spread (p :: q :: rest))
    with (p :: [] :: [] :: [] :: [] :: spread (q :: rest)).
  destruct (spread_cons q rest) as [xs ->].
  reflexivity.
Qed.

Definition text_line (l : str) : Prop := tidy l /\ l <> [].

Lemma spread_lone (ps : list str) : Forall text_line ps -> lone false (spread ps).
Proof.
  induction 1 as [|p rest [Hp Hne] Hrest IH]; [exact I|].
  destruct rest as [|q rest].
  - simpl. right. auto.
  - change (spread (p :: q :: rest))
      with (p :: [] :: [] :: [] :: [] :: spread (q :: rest)).
    right. split; [reflexivity|]. split; [exact Hp|]. split; [exact Hne|].
    do 4 (left; split; [reflexivity|]). exact IH.
Qed.

Lemma spread_no_break (ps : list str) :
  Forall text_line ps -> Forall no_break (spread ps).
Proof.
  induction 1 as [|p rest [(Hp & _) Hne] Hrest IH]; [constructor|].
  destruct rest as [|q rest]; [constructor; [exact Hp | constructor]|].
  change (spread (p :: q :: rest))
    with (p :: [] :: [] :: [] :: [] :: spread (q :: rest)).
  constructor; [exact Hp|]. do 4 (constructor; [constructor|]). exact IH.
Qed.

Lemma spread_last (ps : list str) (d : str) :
  ps <> [] -> Forall text_line ps -> is_empty (last (spread ps) d) = false.
Proof.
  intros Hne H. induction H as [|p rest [_ Hp] Hrest IH]; [contradiction|].
  destruct rest as [|q rest].
  - simpl. destruct p; [contradiction | reflexivity].
  - specialize (IH ltac:(discriminate)).
    change (spread (p :: q :: rest))
      with (p :: [] :: [] :: [] :: [] :: spread (q :: rest)).
    destruct (spread_cons q rest) as [xs E]. rewrite E in *. exact IH.
Qed.

(** X3: a text of tidy one-line paragraphs set apart by [sep], without the
    two characters "^M", is what [join_lines] returns for it. *)
Theorem join_lines_keeps_batch (ps : list str) :
  Forall text_line ps -> contains (py "^M") (join sep ps) = false ->
  join_lines (join sep ps) = join sep ps.
Proof.
  intros Hps Hcaret. destruct ps as [|p rest]; [reflexivity|].
  set (batch := p :: rest) in *.
  assert (Hne : batch <> []) by discriminate. clearbody batch.
  rewrite join_lines_unfiltered. rewrite join_sep_spread in *.
  pose proof (spread_no_break batch Hps) as Hbr.
  pose proof (spread_last batch (py "x") Hne Hps) as Hlast.
  rewrite (splitlines_join _ Hbr Hlast).
  rewrite (proj1 (join_lines_loop_lone (spread batch) []) (spread_lone batch Hps)).
  rewrite app_nil_l, replace_absent by exact Hcaret.
  now rewrite (splitlines_join _ Hbr Hlast).
Qed.

Lemma endswith_app (x suffix : str) : endswith suffix (x ++ suffix) = true.
Proof. unfold endswith. rewrite rev_app_distr. apply startswith_app. Qed.

Lemma firstn_drop_suffix (x suffix : str) :
  firstn (List.length (x ++ suffix) - List.length suffix) (x ++ suffix) = x.
Proof.
  rewrite length_app, Nat.add_sub, firstn_app, Nat.sub_diag, firstn_all.
  simpl. apply app_nil_r.
Qed.

(** The lines of a batch, each followed by [sep]. *)
Definition each_with_sep (ls : list str) : str :=
  List.concat (map (fun l => l ++ sep) ls).

Lemma each_with_sep_cons (l : str) (ls : list str) :
  each_with_sep (l :: ls) = l ++ sep ++ each_with_sep ls.
Proof. unfold each_with_sep. cbn [map List.concat]. now rewrite <- app_assoc. Qed.

Lemma each_with_sep_join (l : str) (ls : list str) :
  each_with_sep (l :: ls) = join sep (l :: ls) ++ sep.
Proof.
  revert l. induction ls as [|l' ls IH]; intros l.
  - unfold each_with_sep. simpl. now rewrite app_nil_r.
  - rewrite join_cons, each_with_sep_cons, IH, <- !app_assoc. reflexivity.
Qed.

Section WithParagraphs.

Variable Paragraph : Type.
Variable get_text : Paragraph -> str.

Lemma number_loop_lines (plist : list Paragraph) (i : nat) (new_str : str) :
  number_loop Paragraph get_text plist i new_str
  = new_str ++ each_with_sep (numbered_from get_text i plist).
Proof.
  revert i new_str. induction plist as [|p rest IH]; intros i new_str.
  - simpl. now rewrite app_nil_r.
  - cbn [number_loop numbered_from]. rewrite IH, each_with_sep_cons.
    unfold numbered. rewrite <- !app_assoc. reflexivity.
Qed.

(** X4: the text [translate_list] builds before [join_lines] is the
    paragraphs, numbered from 1 as "(i) text" with the text stripped, joined
    by [sep]: of the separators the loop adds, one after every paragraph,
    the cut of lines 338-339 takes off the last and no more, whatever the
    paragraphs hold.  For an empty list the text is empty.  The text sent is
    [join_lines] of it. *)
Theorem batch_text_join (plist : list Paragraph) :
  numbered_text Paragraph get_text plist
  = join sep (numbered_from get_text 1 plist)
  /\ numbered_text Paragraph get_text [] = []
  /\ batch_text Paragraph get_text plist
     = join_lines (join sep (numbered_from get_text 1 plist)).
Proof.
  assert (H : numbered_text Paragraph get_text plist
              = join sep (numbered_from get_text 1 plist)).
  { unfold numbered_text. rewrite number_loop_lines. rewrite app_nil_l.
    destruct (numbered_from get_text 1 plist) as [|l ls]; [reflexivity|].
    now rewrite each_with_sep_join, endswith_app, firstn_drop_suffix. }
  split; [exact H|]. split; [reflexivity|].
  unfold batch_text. now rewrite H.
Qed.

End WithParagraphs.

Lemma uint_digits (d : Decimal.uint) :
  Forall (fun c => isdigit c = true) (py (DecimalString.NilEmpty.string_of_uint d)).
Proof. induction d; simpl; constructor; trivial. Qed.

(** [f"{i}"] is made of decimal digits. *)
Lemma str_of_nat_digits (n : nat) : Forall (fun c => isdigit c = true) (str_of_nat n).
Proof.
  unfold str_of_nat, DecimalString.NilZero.string_of_uint.
  destruct (Nat.to_uint n) eqn:E; try (rewrite <- E; apply uint_digits).
  repeat constructor.
Qed.

Lemma digit_plain (c : ascii) :
  isdigit c = true ->
  is_linebreak c = false /\ isspace c = false /\ c <> "^"%char.
Proof.
  destruct c as [b0 b1 b2 b3 b4 b5 b6 b7].
  destruct b0, b1, b2, b3, b4, b5, b6, b7; simpl; intros H;
    try discriminate H; repeat split; discriminate.
Qed.

Lemma rstrip_app_fixed (pre t : str) :
  rstrip t = t -> t <> [] -> rstrip (pre ++ t) = pre ++ t.
Proof.
  intros Ht Hne. induction pre as [|c pre IH]; trivial.
  simpl. rewrite IH. destruct (pre ++ t) eqn:E; trivial.
  apply app_eq_nil in E as [_ E]. contradiction.
Qed.

Lemma numbered_text_line (i : nat) (text : str) :
  text_line text -> text_line (numbered i text).
Proof.
  intros [(Hb & Hl & Hr) Hne]. unfold numbered. split; [|discriminate].
  split; [|split].
  - apply no_break_app. split; [repeat constructor|].
    apply no_break_app. split.
    + eapply Forall_impl; [|apply str_of_nat_digits].
      intros c Hc. now apply digit_plain.
    + apply no_break_app. split; [repeat constructor | exact Hb].
  - reflexivity.
  - rewrite !app_assoc. now apply rstrip_app_fixed.
Qed.

Lemma contains_pair_app (a b : ascii) (x y : str) :
  contains [a; b] x = false -> contains [a; b] y = false ->
  ends_with a x = false \/ starts_with b y = false ->
  contains [a; b] (x ++ y) = false.
Proof.
  intros Hx Hy Hedge. induction x as [|c r IH]; trivial.
  cbn [contains] in Hx. apply orb_false_elim in Hx as [Hs Hr].
  change ((c :: r) ++ y) with (c :: r ++ y). cbn [contains].
  apply orb_false_intro.
  - destruct r as [|c' r'].
    + simpl in *. destruct Hedge as [He | He].
      * rewrite Ascii.eqb_sym, He. reflexivity.
      * destruct y as [|d y']; [now rewrite andb_false_r|].
        simpl in He. rewrite Ascii.eqb_sym in He. rewrite He.
        now rewrite andb_false_r.
    + simpl in *. exact Hs.
  - apply IH; trivial. destruct r as [|c' r']; [now left|]. exact Hedge.
Qed.

Lemma contains_absent_char (a b : ascii) (s : str) :
  Forall (fun c => c <> a) s -> contains [a; b] s = false.
Proof.
  induction 1 as [|c r Hc _ IH]; trivial.
  cbn [contains]. rewrite IH, orb_false_r. simpl.
  apply Ascii.eqb_neq in Hc. rewrite Ascii.eqb_sym, Hc. reflexivity.
Qed.

Lemma ends_with_last (a c : ascii) (s : str) :
  ends_with a (s ++ [c]) = Ascii.eqb c a.
Proof.
  induction s as [|d s IH]; trivial.
  simpl. destruct (s ++ [c]) eqn:E; [|exact IH].
  now apply app_eq_nil in E as [_ E].
Qed.

Lemma numbered_caret (i : nat) (text : str) :
  contains (py "^M") text = false -> contains (py "^M") (numbered i text) = false.
Proof.
  intros H. unfold numbered. rewrite !app_assoc.
  apply contains_pair_app; trivial.
  - apply contains_absent_char. apply Forall_app. split.
    + apply Forall_app. split; [repeat constructor; discriminate|].
      eapply Forall_impl; [|apply str_of_nat_digits].
      intros c Hc. now apply digit_plain.
    + repeat constructor; discriminate.
  - left. change (py ") ") with ([")"%char] ++ [" "%char]).
    rewrite !app_assoc. apply ends_with_last.
Qed.

Lemma batch_caret (ls : list str) :
  Forall (fun l => contains (py "^M") l = false) ls ->
  contains (py "^M") (join sep ls) = false.
Proof.
  induction 1 as [|l rest Hl Hrest IH]; trivial.
  destruct rest as [|l' rest]; trivial.
  rewrite join_cons. apply contains_pair_app; trivial. now right.
Qed.

Section SingleLines.

Variable Paragraph : Type.
Variable get_text : Paragraph -> str.

(** A paragraph whose stripped text is one line, not empty and without the
    two characters "^M". *)
Definition one_line (p : Paragraph) : Prop :=
  strip (get_text p) <> [] /\ no_break (strip (get_text p))
  /\ contains (py "^M") (strip (get_text p)) = false.

Lemma numbered_from_lines (plist : list Paragraph) (i : nat) :
  Forall one_line plist ->
  Forall text_line (numbered_from get_text i plist)
  /\ Forall (fun l => contains (py "^M") l = false) (numbered_from get_text i plist).
Proof.
  intros H. revert i. induction H as [|p rest (Hne & Hb & Hc) _ IH]; intros i.
  - split; constructor.
  - destruct (IH (i + 1)) as [IH1 IH2]. cbn [numbered_from]. split; constructor; trivial.
    + apply numbered_text_line. split; trivial.
      split; [exact Hb|]. split; [apply lstrip_strip|].
      unfold strip. apply rstrip_idem.
    + now apply numbered_caret.
Qed.

(** X5: for paragraphs of one line each, the text sent is the numbered
    paragraphs joined by [sep], as they are. *)
Theorem batch_text_one_line (plist : list Paragraph) :
  Forall one_line plist ->
  batch_text Paragraph get_text plist = join sep (numbered_from get_text 1 plist).
Proof.
  intros H. destruct (numbered_from_lines plist 1 H) as [Hl Hc].
  unfold batch_text, numbered_text. rewrite number_loop_lines, app_nil_l.
  destruct (numbered_from get_text 1 plist) as [|l ls] eqn:E; [reflexivity|].
  rewrite each_with_sep_join, endswith_app, firstn_drop_suffix.
  rewrite join_lines_unfiltered, join_sep_spread.
  assert (Hne : l :: ls <> []) by discriminate.
  pose proof (spread_no_break _ Hl) as Hbr.
  pose proof (spread_last _ (py "x") Hne Hl) as Hlast.
  pose proof (batch_caret _ Hc) as Hcaret. rewrite join_sep_spread in Hcaret.
  rewrite (splitlines_join _ Hbr Hlast).
  rewrite (proj1 (join_lines_loop_lone (spread (l :: ls)) []) (spread_lone _ Hl)).
  rewrite app_nil_l, replace_absent by exact Hcaret.
  now rewrite (splitlines_join _ Hbr Hlast).
Qed.

End SingleLines.

Lemma join_lines_wraps_witness :
  join_lines (py "It was a dark
  and stormy
night.") = py "It was a dark and stormy night.".
Proof.
  apply (JoinLinesSpec.join_lines_wraps
           [py "It was a dark"; py "  and stormy"; py "night."]).
  - discriminate.
  - repeat constructor.
  - repeat constructor.
  - reflexivity.
Defined.

Lemma join_lines_keeps_batch_witness :
  join_lines (join sep [py "(1) one"; py "(2) two"])
  = join sep [py "(1) one"; py "(2) two"].
Proof.
  apply (join_lines_keeps_batch [py "(1) one"; py "(2) two"]).
  - repeat constructor; discriminate.
  - reflexivity.
Defined.

Lemma batch_text_one_line_witness :
  batch_text string py [" one "%string; "two"%string]
  = py "(1) one




(2) two".
Proof.
  apply (batch_text_one_line string py [" one "%string; "two"%string]).
  repeat constructor; discriminate.
Defined.

End BatchTextSpec.

(** ** [translate_list] and the list the retry loop returns *)

Module TranslateListSpec.
Import TextFacts ParserFacts TextMore CallSpec RetrySpec ReconcilerSpec.

(** The line of [log_retry] and the first line of
    [log_translation_mismatch], as the objects of one [print]. *)
Definition retry_line (state : str) (retry_count : nat) (elapsed : str) : list str :=
  [py "retry " ++ state ++ py ", count = " ++ str_of_nat retry_count
      ++ py ", time = " ++ elapsed ++ py "s"].

Definition size_line (plist_len : nat) (result_list : list str) : list str :=
  [py "problem size: "
      ++ str_of_Z (Z.of_nat plist_len - Z.of_nat (List.length result_list))%Z].

(** The record of the source paragraph of index [i]: the paragraph and an
    empty line; when the list has a line of that index, a line of dots, that
    line and an empty line; a line of equals signs. *)
Definition mismatch_record (i : nat) (source : str) (result_list : list str)
  : list (list str) :=
  [[source]; []]
  ++ (if i <? List.length result_list
      then [[py "............................................"];
            [nth i result_list []]; []]
      else [])
  ++ [[py "============================="]].

(** The records of the source paragraphs, the first of index [i]. *)
Fixpoint mismatch_records (sources : list str) (i : nat) (result_list : list str)
  : list (list str) :=
  match sources with
  | [] => []
  | source :: rest =>
      mismatch_record i source result_list ++ mismatch_records rest (S i) result_list
  end.

(** What a console writes for a series of prints, when it raises at none
    of them. *)
Fixpoint rendered (console : Console) (prints : list (list str)) : option str :=
  match prints with
  | [] => Some []
  | objects :: rest =>
      match console objects, rendered console rest with
      | Return written, Some text => Some (written ++ text)
      | _, _ => None
      end
  end.

(** A writer that only adds to the file. *)
Definition grows (w : Writer) : Prop :=
  forall file, exists added, snd (w file) = file ++ added.

(** A writer that makes the prints [prints], one after the other: it
    writes what the console does for them and returns, or raises when the
    console does. *)
Definition writes (console : Console) (w : Writer) (prints : list (list str))
  : Prop :=
  forall file,
    match rendered console prints with
    | Some text => w file = (Return tt, file ++ text)
    | None => exists e, fst (w file) = Raise e
    end.

Section WithConsole.

Variable console : Console.

Lemma done_grows : grows done.
Proof. intros file. exists []. simpl. now rewrite app_nil_r. Qed.

Lemma print_to_grows (objects : list str) : grows (print_to console objects).
Proof.
  intros file. unfold print_to. destruct (console objects) as [written|e]; simpl.
  - now exists written.
  - exists []. now rewrite app_nil_r.
Qed.

Lemma and_then_grows (first next : Writer) :
  grows first -> grows next -> grows (first ;; next).
Proof.
  intros H1 H2 file. unfold and_then. destruct (H1 file) as [a Ha].
  destruct (first file) as [[[]|e] file1]; simpl in Ha; subst file1.
  - destruct (H2 (file ++ a)) as [b Hb]. exists (a ++ b).
    now rewrite Hb, app_assoc.
  - now exists a.
Qed.

Lemma mismatch_loop_grows (rest : list str) (result_list : list str) :
  forall i, grows (mismatch_loop console rest i result_list).
Proof.
  induction rest as [|source rest IH]; intros i; [apply done_grows|].
  cbn [mismatch_loop].
  repeat first [apply and_then_grows | apply print_to_grows | apply IH].
  destruct (i <? List.length result_list); [|apply done_grows].
  repeat first [apply and_then_grows | apply print_to_grows].
Qed.

Lemma log_retry_grows (state : str) (retry_count : nat) (elapsed : str) :
  grows (log_retry console state retry_count elapsed).
Proof.
  unfold log_retry. destruct (retry_count =? 0);
    [apply done_grows | apply print_to_grows].
Qed.

Lemma log_translation_mismatch_grows (plist_len : nat) (result_list : list str)
    (new_str sep : str) :
  grows (log_translation_mismatch console plist_len result_list new_str sep).
Proof.
  unfold log_translation_mismatch.
  destruct (List.length result_list =? plist_len); [apply done_grows|].
  apply and_then_grows; [apply print_to_grows | apply mismatch_loop_grows].
Qed.

Lemma rendered_app (a b : list (list str)) :
  rendered console (a ++ b)
  = match rendered console a, rendered console b with
    | Some x, Some y => Some (x ++ y)
    | _, _ => None
    end.
Proof.
  induction a as [|objects a IH]; simpl.
  - now destruct (rendered console b).
  - rewrite IH. destruct (console objects) as [w|e]; trivial.
    destruct (rendered console a), (rendered console b); trivial.
    now rewrite app_assoc.
Qed.

(** A console that raises at nothing renders every series of prints. *)
Definition rendering (prints : list (list str)) : str :=
  List.concat (map (fun objects => match console objects with
                                   | Return written => written
                                   | Raise _ => []
                                   end) prints).

Lemma rendered_total :
  (forall objects, exists written, console objects = Return written) ->
  forall prints, rendered console prints = Some (rendering prints).
Proof.
  intros H prints. induction prints as [|objects rest IH]; trivial.
  cbn [rendered]. rewrite IH. unfold rendering. cbn [map List.concat].
  destruct (H objects) as [w ->]. reflexivity.
Qed.

Lemma done_writes : writes console done [].
Proof. intros file. simpl. now rewrite app_nil_r. Qed.

Lemma print_to_writes (objects : list str) :
  writes console (print_to console objects) [objects].
Proof.
  intros file. unfold print_to. simpl.
  destruct (console objects) as [w|e]; simpl.
  - now rewrite app_nil_r.
  - now exists e.
Qed.

Lemma and_then_writes (first next : Writer) (a b : list (list str)) :
  writes console first a -> writes console next b ->
  writes console (first ;; next) (a ++ b).
Proof.
  intros H1 H2 file. rewrite rendered_app. unfold and_then.
  specialize (H1 file). destruct (rendered console a) as [x|].
  - rewrite H1. specialize (H2 (file ++ x)).
    destruct (rendered console b) as [y|].
    + now rewrite H2, app_assoc.
    + exact H2.
  - destruct H1 as [e H1].
    destruct (first file) as [[[]|e'] file1]; simpl in H1; [discriminate|].
    now exists e'.
Qed.

Lemma mismatch_loop_writes (rest : list str) (result_list : list str) :
  forall i,
    writes console (mismatch_loop console rest i result_list)
           (mismatch_records rest i result_list).
Proof.
  induction rest as [|source rest IH]; intros i; [apply done_writes|].
  cbn [mismatch_loop mismatch_records]. unfold mismatch_record.
  rewrite <- !app_assoc.
  apply (and_then_writes _ _ [[source]]); [apply print_to_writes|].
  apply (and_then_writes _ _ [[]]); [apply print_to_writes|].
  apply and_then_writes.
  - destruct (i <? List.length result_list); [|apply done_writes].
    apply (and_then_writes _ _ [_]); [apply print_to_writes|].
    apply (and_then_writes _ _ [_]); [apply print_to_writes|].
    apply print_to_writes.
  - apply (and_then_writes _ _ [_]); [apply print_to_writes | apply IH].
Qed.

Lemma log_retry_writes (state : str) (retry_count : nat) (elapsed : str) :
  writes console (log_retry console state retry_count elapsed)
         (if retry_count =? 0 then [] else [retry_line state retry_count elapsed]).
Proof.
  unfold log_retry. destruct (retry_count =? 0);
    [apply done_writes | apply print_to_writes].
Qed.

Lemma log_translation_mismatch_writes (plist_len : nat) (result_list : list str)
    (new_str sep : str) :
  writes console (log_translation_mismatch console plist_len result_list new_str sep)
         (if List.length result_list =? plist_len then []
          else size_line plist_len result_list
               :: mismatch_records (split sep new_str) 0 result_list).
Proof.
  unfold log_translation_mismatch.
  destruct (List.length result_list =? plist_len); [apply done_writes|].
  apply (and_then_writes _ _ [_]); [apply print_to_writes | apply mismatch_loop_writes].
Qed.

End WithConsole.

(** How far a list is kept in bounds by the rounds of the loop: a best list
    not beyond the target never shrinks and never goes beyond it; one beyond
    the target never grows. *)
Definition climbs (plist_len : nat) (first best : list str) : Prop :=
  (List.length first <= plist_len ->
   List.length first <= List.length best <= plist_len)
  /\ (plist_len < List.length first -> List.length best <= List.length first).

Section WithWorld.

Variable encode : str -> str -> list nat.
Variable service : nat -> option str -> Request -> Reply.
Variable console : Console.

(** A line as [split_lines] gives it. *)
Definition parsed_line (l : str) : Prop := tidy l /\ is_empty l = false.

Lemma iterations_parsed_lines (plist_len : nat) (new_str : str) (sleep_dur k : nat)
    (c c' : Config) :
  Iterations encode service console plist_len new_str sleep_dur k c c' ->
  Forall parsed_line (snd (fst c)) -> Forall parsed_line (snd (fst c')).
Proof.
  induction 1 as [c | k result best st result' st' c Hlen Ht Hrun IH]; trivial.
  simpl in *. intros Hbest. apply IH.
  destruct (replaces_best plist_len best result'); trivial.
  unfold translate_and_split_lines in Ht.
  destruct (translate encode service console new_str (sleep sleep_dur st))
    as [[[r|e] st1]|]; try discriminate.
  injection Ht as <- _. apply split_lines_tidy.
Qed.

Lemma iterations_climb (plist_len : nat) (new_str : str) (sleep_dur k : nat)
    (c c' : Config) :
  Iterations encode service console plist_len new_str sleep_dur k c c' ->
  climbs plist_len (snd (fst c)) (snd (fst c')).
Proof.
  induction 1 as [c | k result best st result' st' c Hlen Ht Hrun IH].
  - unfold climbs. lia.
  - simpl in *. unfold climbs in *.
    pose proof (replaces_best_accepted service plist_len best result') as Hacc.
    unfold accepted in Hacc.
    destruct (replaces_best plist_len best result').
    + assert (A : List.length result' = plist_len
                  \/ List.length best < List.length result' <= plist_len
                  \/ List.length result' < List.length best
                     /\ plist_len < List.length best) by now apply Hacc.
      lia.
    + exact IH.
Qed.

(** What [get_best_result_list] does with the default cap. *)
Lemma get_best_result_list_ends (plist_len : nat) (new_str : str)
    (sleep_dur : nat) (result_list : list str) (st : State) :
  exists out st',
    get_best_result_list encode service console plist_len new_str sleep_dur result_list
                         default_max_retries st = Some (out, st')
    /\ requests (trace st') <= requests (trace st) + 45
    /\ match out with
       | Raise _ => True
       | Return (best, retry_count) =>
           retry_count <= 15
           /\ (List.length best <> plist_len -> retry_count = 15)
           /\ (retry_count = 0 -> best = result_list /\ st' = st)
           /\ climbs plist_len result_list best
           /\ (Forall parsed_line result_list -> Forall parsed_line best)
       end.
Proof.
  unfold get_best_result_list.
  destruct (List.length result_list =? plist_len) eqn:E.
  - apply Nat.eqb_eq in E. exists (Return (result_list, 0)), st.
    split; [reflexivity|]. split; [lia|]. unfold climbs.
    repeat split; trivial; lia.
  - destruct (best_result_loop_run encode service console default_max_retries plist_len
                new_str sleep_dur default_max_retries 0 result_list result_list st)
      as (k & result_k & best_k & st_k & Hk & Hrun & Hreq & Hend);
      try lia; try tauto.
    change (0 + k) with k in *. unfold default_max_retries in Hk, Hend.
    pose proof (iterations_climb _ _ _ _ _ _ Hrun) as Hclimb. simpl in Hclimb.
    destruct Hend as [(Hret & Hstop & Hiff) | (e & st' & Hlt & Hne & _ & Hq & Hloop)].
    + exists (Return (best_k, k)), st_k. split; [exact Hret|]. split; [lia|].
      split; [exact Hk|]. split; [tauto|].
      split; [intros ->; inversion Hrun; subst; now split|].
      split; [exact Hclimb|].
      apply (iterations_parsed_lines _ _ _ _ _ _ Hrun).
    + exists (Raise e), st'. split; [exact Hloop|]. split; [lia | exact I].
Qed.

(** X6: the list [get_best_result_list] returns is bounded by the first list
    and the target.  When the first list is not beyond the target, the list
    returned is at least as long and not beyond the target either; when it is
    beyond, the list returned is not longer.  A list off target is returned
    at the cap only. *)
Theorem best_result_bounds (plist_len : nat) (new_str : str) (sleep_dur : nat)
    (result_list best : list str) (retry_count : nat) (st st' : State) :
  get_best_result_list encode service console plist_len new_str sleep_dur result_list
                       default_max_retries st
  = Some (Return (best, retry_count), st') ->
  (List.length result_list <= plist_len ->
   List.length result_list <= List.length best <= plist_len)
  /\ (plist_len < List.length result_list ->
      List.length best <= List.length result_list)
  /\ (List.length best <> plist_len -> retry_count = 15).
Proof.
  intros H.
  destruct (get_best_result_list_ends plist_len new_str sleep_dur result_list st)
    as (out & st2 & Hget & _ & Hout).
  rewrite H in Hget. injection Hget as <- <-.
  destruct Hout as (_ & Hcap & _ & (Hlow & Hhigh) & _). auto.
Qed.

Lemma split_lines_are_tidy_aux (text : str) (st st' : State) (lines : list str) :
  translate_and_split_lines encode service console text st = Some (Return lines, st') ->
  Forall parsed_line lines.
Proof.
  unfold translate_and_split_lines. intros H.
  destruct (translate encode service console text st) as [[[r|e] st1]|];
    try discriminate.
  injection H as <- _. apply split_lines_tidy.
Qed.

(** X7: the lines [translate_and_split_lines] returns are not empty and have
    neither white space at an end nor a line boundary inside. *)
Theorem split_lines_are_tidy (text : str) (st st' : State) (lines : list str) :
  translate_and_split_lines encode service console text st = Some (Return lines, st') ->
  Forall (fun l => l <> [] /\ lstrip l = l /\ rstrip l = l
                   /\ Forall (fun c => is_linebreak c = false) l) lines.
Proof.
  intros H. eapply Forall_impl; [|exact (split_lines_are_tidy_aux _ _ _ _ H)].
  intros l [(Hb & Hl & Hr) Hne]. repeat split; trivial.
  destruct l; [discriminate | discriminate].
Qed.

End WithWorld.

Section WithDocument.

Variable encode : str -> str -> list nat.
Variable service : nat -> option str -> Request -> Reply.
Variable console : Console.
Variable Paragraph : Type.
Variable get_text : Paragraph -> str.
Variable now : State -> Q.
Variable fixed1 : Q -> str.

(** X8: when the first reply already has one line per paragraph,
    [translate_list] returns these lines without their ordinal markers, in
    the state the one translation left, and writes nothing to the log: no
    sleep, no further call. *)
Theorem translate_list_aligned (plist : list Paragraph) (st st1 : State)
    (buglog : str) (result_list : list str) :
  translate_and_split_lines encode service console
    (batch_text Paragraph get_text plist) st
  = Some (Return result_list, st1) ->
  List.length result_list = List.length plist ->
  translate_list encode service console Paragraph get_text now fixed1 plist st buglog
  = Some (Return (strip_numbering result_list), st1, buglog).
Proof.
  intros Ht Hlen. unfold translate_list. rewrite Ht.
  unfold get_best_result_list. apply Nat.eqb_eq in Hlen. rewrite Hlen. simpl.
  unfold log_translation_mismatch. now rewrite Hlen.
Qed.


End WithDocument.

End TranslateListSpec.

(** ** The reply: what is charged, what is extracted *)

Module ReplySpec.
Import TextFacts ParserFacts TextMore CallSpec.

Definition brace : ascii := "}"%char.

Lemma last_choice {A : Type} (cs : list A) (choice : A) :
  last (map Some (cs ++ [choice])) None = Some choice.
Proof. rewrite map_app. simpl. apply last_last. Qed.

Lemma lstrip_at_text (ws : str) (c : ascii) (rest : str) :
  forallb isspace ws = true -> isspace c = false ->
  lstrip (ws ++ c :: rest) = c :: rest.
Proof.
  intros Hws Hc. unfold lstrip. induction ws as [|w ws IH]; simpl in *.
  - now rewrite Hc.
  - apply andb_prop in Hws as [Hw Hws]. rewrite Hw. now apply IH.
Qed.

(** [closes] by its two steps. *)
Definition brace_at (t : str) : bool :=
  match lstrip t with
  | c :: _ => Ascii.eqb c brace
  | [] => false
  end.

Definition comma_at (t : str) : bool :=
  match t with
  | c :: r => (Ascii.eqb c ","%char && brace_at r) || brace_at t
  | [] => false
  end.

Lemma closes_steps (s : str) :
  closes s = match s with
             | c :: r => (Ascii.eqb c DQ && comma_at r) || comma_at s
             | [] => false
             end.
Proof. now destruct s. Qed.

(** Before a double quote, text without a closing brace does not close the
    pattern. *)
Lemma brace_false (u rest : str) :
  ~ In brace u -> brace_at (u ++ DQ :: rest) = false.
Proof.
  intros Hu. unfold brace_at, lstrip. induction u as [|c u IH]; trivial.
  simpl. destruct (isspace c).
  - apply IH. intros H. apply Hu. now right.
  - apply Ascii.eqb_neq. intros ->. apply Hu. now left.
Qed.

Lemma comma_false (u rest : str) :
  ~ In brace u -> comma_at (u ++ DQ :: rest) = false.
Proof.
  intros Hu. destruct u as [|c u].
  - pose proof (brace_false [] rest Hu) as B. simpl app in *.
    unfold comma_at. now rewrite B.
  - change ((c :: u) ++ DQ :: rest) with (c :: u ++ DQ :: rest). unfold comma_at.
    change (c :: u ++ DQ :: rest) with ((c :: u) ++ DQ :: rest).
    rewrite (brace_false (c :: u) rest Hu).
    rewrite (brace_false u rest); [now rewrite andb_false_r|].
    intros X. apply Hu. now right.
Qed.

Lemma closes_false (c : ascii) (u rest : str) :
  ~ In brace (c :: u) -> closes ((c :: u) ++ DQ :: rest) = false.
Proof.
  intros H. rewrite closes_steps.
  change ((c :: u) ++ DQ :: rest) with (c :: u ++ DQ :: rest).
  change (c :: u ++ DQ :: rest) with ((c :: u) ++ DQ :: rest) at 2.
  rewrite (comma_false (c :: u) rest H).
  rewrite (comma_false u rest); [now rewrite andb_false_r|].
  intros X. apply H. now right.
Qed.

Lemma capture_group (g rest acc : str) :
  ~ In brace g -> closes (DQ :: rest) = true ->
  capture acc (g ++ DQ :: rest) = Some (acc ++ g).
Proof.
  intros Hg Hclose. revert acc. induction g as [|c g IH]; intros acc.
  - simpl app. rewrite app_nil_r. cbn [capture]. now rewrite Hclose.
  - change ((c :: g) ++ DQ :: rest) with (c :: g ++ DQ :: rest).
    cbn [capture].
    change (c :: g ++ DQ :: rest) with ((c :: g) ++ DQ :: rest).
    rewrite closes_false by exact Hg. simpl app.
    rewrite IH, <- app_assoc; [reflexivity|].
    intros X. apply Hg. now right.
Qed.

Lemma startswith_firstn (p s : str) :
  startswith p s = startswith p (firstn (List.length p) s).
Proof.
  revert s. induction p as [|c p IH]; intros s; [now destruct s|].
  destruct s as [|d s]; trivial. simpl. now rewrite <- IH.
Qed.

(** An occurrence of the label that starts in [pre] lies in [pre] and all
    but the last character of the label that follows. *)
Lemma label_not_started (c : ascii) (pre rest : str) :
  contains label ((c :: pre) ++ removelast label) = false ->
  startswith label ((c :: pre) ++ label ++ rest) = false.
Proof.
  intros H. apply contains_false_startswith in H.
  rewrite startswith_firstn in *.
  assert (E : label = removelast label ++ [last label DQ])
    by (apply app_removelast_last; discriminate).
  rewrite E at 3. rewrite <- app_assoc, app_assoc.
  rewrite firstn_app.
  replace (List.length label - List.length ((c :: pre) ++ removelast label))
    with 0.
  - simpl firstn at 2. rewrite app_nil_r. exact H.
  - rewrite length_app.
    change (List.length label) with 21.
    change (List.length (removelast label)) with 20.
    simpl List.length. lia.
Qed.

Lemma search_skips (pre rest : str) :
  contains label (pre ++ removelast label) = false ->
  search_better_translation (pre ++ label ++ rest)
  = search_better_translation (label ++ rest).
Proof.
  induction pre as [|c pre IH]; intros H; trivial.
  pose proof (label_not_started c pre rest H) as Hs.
  change ((c :: pre) ++ label ++ rest) with (c :: pre ++ label ++ rest) in *.
  cbn [search_better_translation]. unfold match_here at 1. rewrite Hs.
  apply IH. change ((c :: pre) ++ removelast label)
    with (c :: pre ++ removelast label) in H.
  cbn [contains] in H. now apply orb_false_elim in H as [_ H].
Qed.

Lemma search_here (s g : str) :
  match_here s = Some g -> search_better_translation s = Some g.
Proof.
  intros H. destruct s as [|c s].
  - discriminate H.
  - cbn [search_better_translation]. now rewrite H.
Qed.

Lemma match_here_label (ws g rest : str) :
  forallb isspace ws = true -> ~ In brace g -> closes (DQ :: rest) = true ->
  match_here (label ++ ws ++ DQ :: g ++ DQ :: rest) = Some g.
Proof.
  intros Hws Hg Hclose. unfold match_here.
  rewrite startswith_app, skipn_app, skipn_all, Nat.sub_diag. simpl skipn.
  rewrite app_nil_l, lstrip_at_text by (trivial; reflexivity).
  rewrite Ascii.eqb_refl. now apply (capture_group g rest []).
Qed.

(** The field is found where the reply has it. *)
Lemma search_finds (pre ws g rest : str) :
  contains label (pre ++ removelast label) = false ->
  forallb isspace ws = true -> ~ In brace g -> closes (DQ :: rest) = true ->
  search_better_translation (pre ++ label ++ ws ++ DQ :: g ++ DQ :: rest) = Some g.
Proof.
  intros Hpre Hws Hg Hclose. rewrite search_skips by exact Hpre.
  apply search_here. now apply match_here_label.
Qed.

Lemma search_absent (s : str) :
  contains label s = false -> search_better_translation s = None.
Proof.
  induction s as [|c s IH]; intros H.
  - reflexivity.
  - pose proof (contains_false_startswith _ _ H) as Hs.
    cbn [search_better_translation]. unfold match_here at 1. rewrite Hs.
    apply IH. cbn [contains] in H. now apply orb_false_elim in H as [_ H].
Qed.

Section WithWorld.

Variable encode : str -> str -> list nat.
Variable service : nat -> option str -> Request -> Reply.
Variable console : Console.

(** The text [get_translation] returns for a completion that has all it
    reads. *)
Definition translation_of (choice : Choice) : str :=
  let response_text := match content choice with Some c => c | None => [] end in
  replace (py "\n") [LF]
    (match search_better_translation response_text with
     | Some group => group
     | None => response_text
     end).

(** The print of lines 166-174 raises nothing: the last choice did not
    finish by "length", so that nothing is printed, or the console writes
    the record. *)
Definition logged (text : str) (choice : Choice) : Prop :=
  finish_reason choice = py "length" ->
  exists written, console [long_text_message text] = Return written.

Lemma str_eqb_eq (a b : str) : str_eqb a b = true <-> a = b.
Proof. unfold str_eqb. destruct (list_eq_dec ascii_dec a b); split; congruence. Qed.

Lemma log_long_text_raise (text : str) (st : State) (e : exception) :
  console [long_text_message text] = Raise e ->
  log_long_text console text st = (Raise e, st).
Proof.
  intros H. unfold log_long_text, print_to. rewrite H. now destruct st.
Qed.

Lemma log_long_text_return (text : str) (st : State) (written : str) :
  console [long_text_message text] = Return written ->
  log_long_text console text st
  = (Return tt, set_long_text_txt (long_text_txt st ++ written) st).
Proof. intros H. unfold log_long_text, print_to. now rewrite H. Qed.

(** What becomes of a call that handed back a completion with a last
    choice. *)
Lemma get_translation_outcome (text : str) (st st1 : State)
    (completion : Completion) (cs : list Choice) (choice : Choice) :
  create_chat_completion_2pass encode service text (rotate_key st)
  = (Return completion, st1) ->
  choices completion = Some (cs ++ [choice]) ->
  get_translation encode service console text st
  = match fare completion st1 with
    | (Raise e, st2) => (Raise e, st2)
    | (Return _, st2) =>
        if str_eqb (finish_reason choice) (py "length") then
          match console [long_text_message text] with
          | Return written =>
              (Return (translation_of choice),
               set_long_text_txt (long_text_txt st2 ++ written) st2)
          | Raise e => (Raise e, st2)
          end
        else (Return (translation_of choice), st2)
    end.
Proof.
  intros Hcall Hc. unfold get_translation. rewrite Hcall.
  unfold finish_translation. destruct (fare completion st1) as [[[]|e] st2]; trivial.
  rewrite Hc, last_choice. fold (translation_of choice).
  destruct (str_eqb (finish_reason choice) (py "length")); trivial.
  destruct (console [long_text_message text]) as [written|e] eqn:E.
  - now rewrite (log_long_text_return text st2 written E).
  - now rewrite (log_long_text_raise text st2 e E).
Qed.

Lemma get_translation_text (text : str) (st st1 : State) (completion : Completion)
    (cs : list Choice) (choice : Choice) :
  create_chat_completion_2pass encode service text (rotate_key st)
  = (Return completion, st1) ->
  fst (fare completion st1) = Return tt ->
  choices completion = Some (cs ++ [choice]) ->
  logged text choice ->
  fst (get_translation encode service console text st) = Return (translation_of choice).
Proof.
  intros Hcall Hfare Hc Hlog.
  rewrite (get_translation_outcome text st st1 completion cs choice Hcall Hc).
  destruct (fare completion st1) as [[[]|e] st2]; [|discriminate].
  destruct (str_eqb (finish_reason choice) (py "length")) eqn:E; trivial.
  apply str_eqb_eq in E. destruct (Hlog E) as [written ->]. reflexivity.
Qed.



Lemma fare_returns (completion : Completion) (st : State) :
  fst (fare completion st) = Return tt ->
  exists m u, model completion = Some m /\ usage completion = Some u.
Proof.
  unfold fare. destruct (model completion) as [m|]; [|discriminate].
  destruct (usage completion) as [u|]; [|discriminate]. eauto.
Qed.


End WithWorld.

End ReplySpec.

(** ** Further test doubles *)

Module Mock2.

(** A reply in the format the guideline asks for. *)
Definition two_pass_reply : str :=
  py "[{" ++ quoted "direct_translation" ++ py ": " ++ quoted "Salut" ++ py ", "
     ++ label ++ py " " ++ quoted "Bonjour\nle monde" ++ py ",}]".

Definition two_pass_choice : Choice := mkChoice (Some two_pass_reply) (py "stop").

Definition two_pass_completion : Completion :=
  mkCompletion (Some [two_pass_choice]) (Some (py "gpt-3.5-turbo-0613"))
               (Some (mkUsage 100 50)).

Definition two_pass (n : nat) (key : option str) (request : Request) : Reply :=
  Returned two_pass_completion.

Definition steady_choice : Choice :=
  mkChoice (Some (py "(1) un
(2) deux
(3) trois")) (py "stop").

(** A completion without choices. *)
Definition no_choice (n : nat) (key : option str) (request : Request) : Reply :=
  Returned (mkCompletion (Some []) (Some (py "gpt-3.5-turbo-0613"))
                         (Some (mkUsage 100 50))).

(** The state after the one call [get_translation] makes from [st]. *)
Definition called (service : nat -> option str -> Request -> Reply) (text : str)
    (st : State) : State :=
  snd (create_chat_completion_2pass Mock.encode service text (rotate_key st)).

(** A console that refuses a text with a closing tag in it, as [rich]
    does a tag that closes nothing. *)
Definition strict : Console :=
  fun objects =>
    if existsb (contains (py "[/")) objects
    then Raise (MarkupError (py "closing tag"))
    else Mock.console objects.

(** Three paragraphs of a document, by their text. *)
Definition three_texts : list string :=
  ["one"%string; " two "%string; "three"%string].

Definition clock (st : State) : Q := inject_Z (Z.of_nat (List.length (trace st))).
Definition tenths (q : Q) : str := py "0.0".

End Mock2.

(** ** Witnesses of the reply and the batch *)

Module ReplyWitness.
Import ReplySpec TranslateListSpec.




End ReplyWitness.

(** ** The pool, the token count of utils.py, and witnesses *)

Module RestSpec.
Import TextFacts ParserFacts TextMore TranslateListSpec.

Lemma split_char_length (c : ascii) (s cur : str) :
  List.length (split_from [c] 0 cur s) = S (count_occ ascii_dec s c).
Proof.
  revert cur. induction s as [|d s IH]; intros cur; trivial.
  cbn [split_from startswith]. rewrite andb_true_r. simpl count_occ.
  destruct (ascii_dec d c) as [->|Hd].
  - rewrite Ascii.eqb_refl. simpl. now rewrite IH.
  - apply not_eq_sym in Hd. apply Ascii.eqb_neq in Hd. rewrite Hd. apply IH.
Qed.

(** X13: [key_len] is one more than the number of commas of the key, so at
    least 1, and the sleep of [translate], 60 / key_len, is at most 60
    seconds; the credentials joined by commas are the key, so that a key
    with a comma at an end or two commas in a row has an empty credential. *)
Theorem key_len_counts_commas (key language : str) (temperature : Q) :
  let st := init key language temperature in
  key_len st = S (count_occ ascii_dec key ","%char)
  /\ key_len st = List.length (pool st)
  /\ join (py ",") (pool st) = key
  /\ 60 / key_len st <= 60.
Proof.
  cbv zeta.
  assert (L : key_len (init key language temperature)
              = S (count_occ ascii_dec key ","%char))
    by apply split_char_length.
  split; [exact L|]. split; [reflexivity|]. split.
  - change (pool (init key language temperature)) with (split (py ",") key).
    unfold split. rewrite join_split_from by discriminate. reflexivity.
  - rewrite L. apply Nat.Div0.div_le_upper_bound. lia.
Qed.

Section Tokens.

Variable Encoding : Type.
Variable encoding_for_model : str -> option Encoding.
Variable get_encoding : str -> Encoding.
Variable encode_with : Encoding -> str -> list nat.

(** X14: [num_tokens_from_text] is the tokens of the text and of the role
    "user" plus 6, under the encoding of the model or, where the model is
    not known, under cl100k_base; the branch of the legacy model and the
    other give the same count. *)
Theorem num_tokens_is_text_plus_overhead (text model : str) :
  let encoding :=
    match encoding_for_model model with
    | Some encoding => encoding
    | None => get_encoding (py "cl100k_base")
    end in
  num_tokens_from_text Encoding encoding_for_model get_encoding encode_with
                       text model
  = (Z.of_nat (List.length (encode_with encoding (py "user")))
     + Z.of_nat (List.length (encode_with encoding text)) + 6)%Z.
Proof.
  cbv zeta. unfold num_tokens_from_text.
  destruct (existsb (str_eqb model) [py "gpt-3.5-turbo-0301"]);
    cbn [count_messages count_items];
    change (str_eqb (py "role") (py "name")) with false;
    change (str_eqb (py "content") (py "name")) with false;
    cbv iota; lia.
Qed.

End Tokens.

(** X17: the ordinal strip of line 367 cuts a marker of any number of
    digits, between parentheses, before a full stop or bare, and all the
    white space after it, when the text that follows starts with neither
    white space nor, for the bare form, a digit or a full stop; the result is
    always the end of the segment, so that nothing but a prefix is cut. *)
Theorem ordinal_marker_forms (digits ws rest : str) :
  digits <> [] -> forallb isdigit digits = true -> forallb isspace ws = true ->
  lstrip rest = rest ->
  strip_ordinal (py "(" ++ digits ++ py ")" ++ ws ++ rest) = rest
  /\ strip_ordinal (digits ++ py "." ++ ws ++ rest) = rest
  /\ (dropwhile isdigit rest = rest -> startswith (py ".") rest = false ->
      strip_ordinal (digits ++ ws ++ rest) = rest)
  /\ (forall s, exists cut, s = cut ++ strip_ordinal s).
Proof.
  intros Hne Hd Hws Hrest. destruct digits as [|d n]; [contradiction|].
  destruct (ParserSpec.strip_ordinal_marker d n ws rest Hd Hws Hrest)
    as (H1 & H2 & H3).
  split; [exact H1|]. split; [exact H2|]. split.
  - intros Hdig Hdot. apply H3; trivial. now rewrite Hdot.
  - intros s. destruct (strip_ordinal_cases s) as [E | (t & [pre Hpre] & E)].
    + exists []. now rewrite E.
    + destruct (dropwhile_suffix isspace t) as [pre' Hpre'].
      exists (pre ++ pre'). rewrite E, <- app_assoc. unfold lstrip.
      now rewrite <- Hpre'.
Qed.

Lemma ordinal_marker_forms_witness :
  strip_ordinal (py "(12)  hello") = py "hello"
  /\ strip_ordinal (py "12.  hello") = py "hello"
  /\ strip_ordinal (py "12  hello") = py "hello".
Proof.
  destruct (ordinal_marker_forms (py "12") (py "  ") (py "hello")
              ltac:(discriminate) eq_refl eq_refl eq_refl) as (H1 & H2 & H3 & _).
  split; [exact H1|]. split; [exact H2|].
  apply H3; reflexivity.
Defined.




Lemma best_result_bounds_witness :
  List.length [py "a b"; py "c d e"]
  <= List.length [py "(1) a"; py "(2) b"; py "(3) c"; py "(4) d"; py "(5) e"]
  <= 5.
Proof.
  apply (proj1 (best_result_bounds Mock.encode Mock.climbing Mock.console 5
                  Mock.three_paragraphs 6 [py "a b"; py "c d e"]
                  [py "(1) a"; py "(2) b"; py "(3) c"; py "(4) d"; py "(5) e"] 2
                  Mock.fresh
                  (match get_best_result_list Mock.encode Mock.climbing Mock.console 5
                           Mock.three_paragraphs 6 [py "a b"; py "c d e"]
                           default_max_retries Mock.fresh with
                   | Some (_, s) => s
                   | None => Mock.fresh
                   end)
                  ltac:(vm_compute; reflexivity))).
  simpl. lia.
Defined.

Lemma split_lines_are_tidy_witness :
  Forall (fun l => l <> [] /\ lstrip l = l /\ rstrip l = l
                   /\ Forall (fun c => is_linebreak c = false) l)
         Mock.three_lines.
Proof.
  apply (split_lines_are_tidy Mock.encode Mock.steady Mock.console (py "Hello") Mock.fresh
           (match translate_and_split_lines Mock.encode Mock.steady Mock.console (py "Hello")
                    Mock.fresh with
            | Some (_, s) => s
            | None => Mock.fresh
            end)).
  vm_compute. reflexivity.
Defined.

Lemma translate_list_aligned_witness :
  let st1 :=
    match translate_and_split_lines Mock.encode Mock.steady Mock.console
            (batch_text string py Mock2.three_texts) Mock.fresh with
    | Some (_, s) => s
    | None => Mock.fresh
    end in
  translate_list Mock.encode Mock.steady Mock.console string py Mock2.clock Mock2.tenths
                 Mock2.three_texts Mock.fresh (py "earlier records")
  = Some (Return [py "un"; py "deux"; py "trois"], st1, py "earlier records").
Proof.
  cbv zeta.
  apply (translate_list_aligned Mock.encode Mock.steady Mock.console string py Mock2.clock
           Mock2.tenths Mock2.three_texts Mock.fresh _ (py "earlier records")
           Mock.three_lines).
  - vm_compute. reflexivity.
  - reflexivity.
Defined.

End RestSpec.

(** ** What [translate] cuts and what [get_translation] logs *)

Module CutSpec.
Import TextFacts ParserFacts TextMore CallSpec RetrySpec.

(** No occurrence of [sep] in [cur ++ s] starts in [cur]. *)
Definition no_start (sep cur s : str) : Prop :=
  forall pre post, cur = pre ++ post -> post <> [] ->
                   startswith sep (post ++ s) = false.

Lemma no_start_nil (sep s : str) : no_start sep [] s.
Proof.
  intros pre post H Hne. symmetry in H. apply app_eq_nil in H as [_ H].
  contradiction.
Qed.

Lemma no_start_contains (sep cur : str) :
  sep <> [] -> no_start sep cur [] -> contains sep cur = false.
Proof.
  intros Hsep. induction cur as [|c r IH]; intros H.
  - destruct sep; [contradiction | reflexivity].
  - cbn [contains]. apply orb_false_intro.
    + specialize (H [] (c :: r) eq_refl ltac:(discriminate)).
      now rewrite app_nil_r in H.
    + apply IH. intros pre post E Hne. apply (H (c :: pre) post); trivial.
      now rewrite E.
Qed.

Lemma no_start_step (sep cur r : str) (c : ascii) :
  no_start sep cur (c :: r) -> startswith sep (c :: r) = false ->
  no_start sep (cur ++ [c]) r.
Proof.
  intros H Hc pre post E Hne.
  destruct (@exists_last _ post Hne) as (post' & x & ->).
  rewrite app_assoc in E. apply app_inj_tail in E as [E <-].
  rewrite <- app_assoc. simpl.
  destruct post' as [|p post']; [exact Hc|].
  apply (H pre (p :: post')); [exact E | discriminate].
Qed.

Lemma last_cons_nonempty {A : Type} (x d : A) (l : list A) :
  l <> [] -> last (x :: l) d = last l d.
Proof. destruct l; [contradiction | reflexivity]. Qed.

(** The last piece of a split has no occurrence of the separator. *)
Lemma last_piece_clean (sep s : str) :
  sep <> [] ->
  forall cur skip,
    (skip = 0 -> no_start sep cur s) -> (0 < skip -> cur = []) ->
    contains sep (last (split_from sep skip cur s) []) = false.
Proof.
  intros Hsep. induction s as [|c r IH]; intros cur skip H0 Hs.
  - simpl. destruct skip as [|k].
    + apply no_start_contains; auto.
    + rewrite (Hs ltac:(lia)). destruct sep; [contradiction | reflexivity].
  - destruct skip as [|k].
    + cbn [split_from]. destruct (startswith sep (c :: r)) eqn:E.
      * rewrite last_cons_nonempty by apply split_from_nonempty.
        apply IH; [intros _; apply no_start_nil | reflexivity].
      * apply IH; [intros _ | lia]. apply no_start_step; auto.
    + cbn [split_from]. rewrite (Hs ltac:(lia)).
      apply IH; [intros _; apply no_start_nil | reflexivity].
Qed.

Definition trans_label : str := py "_trans" ++ [DQ] ++ py ":".

Lemma cut_clean (attempt_count : nat) (t_text : str) :
  0 < attempt_count -> contains trans_label (cut attempt_count t_text) = false.
Proof.
  intros H. unfold cut. fold trans_label. apply Nat.ltb_lt in H. rewrite H.
  rewrite andb_true_r. destruct (contains trans_label t_text) eqn:E; trivial.
  unfold split. apply last_piece_clean; [discriminate | | lia].
  intros _. apply no_start_nil.
Qed.

Section WithWorld.

Variable encode : str -> str -> list nat.
Variable service : nat -> option str -> Request -> Reply.
Variable console : Console.

(** X15: a text [translate] returns after more than one call of the remote
    service has no label in it, that is no [_trans] followed by a double
    quote and a colon. *)
Theorem retried_text_has_no_label (text t_text : str) (st st' : State) :
  translate encode service console text st = Some (Return t_text, st') ->
  requests (trace st) + 1 < requests (trace st') ->
  contains (py "_trans" ++ [DQ] ++ py ":") t_text = false.
Proof.
  intros Ht Hreq.
  destruct (translate_run encode service console text st)
    as (n & out & Hn & Hrun & _ & Hlast).
  rewrite Ht in Hrun. injection Hrun as <- ->.
  destruct (state_after_counts encode service console text n st) as (_ & Hq & _).
  assert (Hn2 : 0 < n - 1) by lia.
  destruct (outcome_of encode service console text (n - 1) st) as [t0|e].
  - destruct Hlast as [Hout _]. injection Hout as ->. now apply cut_clean.
  - destruct Hlast as [_ Hout]. discriminate.
Qed.

Lemma fare_log (completion : Completion) (s : State) :
  long_text_txt (snd (fare completion s)) = long_text_txt s.
Proof. unfold fare, spend. repeat break_match; reflexivity. Qed.


End WithWorld.

Lemma retried_text_has_no_label_witness :
  contains (py "_trans" ++ [DQ] ++ py ":") (py "(1) un
(2) deux
(3) trois") = false.
Proof.
  apply (retried_text_has_no_label Mock.encode Mock.flaky Mock.console (py "Hello") _
           Mock.fresh
           (match translate Mock.encode Mock.flaky Mock.console (py "Hello")
                    Mock.fresh with
            | Some (_, s) => s
            | None => Mock.fresh
            end)).
  - vm_compute. reflexivity.
  - vm_compute. lia.
Defined.


End CutSpec.
